(** * Solvent-extraction optimisation driver: model and properties

    The development embeds [scripts/ll_extraction_2.py]:
    - the evaluation function [evaluate_extraction], over IEEE-754 binary64
      numbers (Python's [float]), with Python's [min]/[max];
    - the trial loop that asks the optimiser for a candidate, derives
      [organic_composition], evaluates and reports the result;
    - the body of [evaluate_extraction] once more, as syntax run by an
      interpreter over the module's globals and a random generator, to
      state what the function reads and writes.

    Python floats are binary64, so the arithmetic is Rocq's primitive
    [float] type, whose operations are specified by [SpecFloat].  The
    integer literals of the script meet floats in every expression and are
    written as the floats of the same value; a parameter the optimiser
    hands over as a Python [int] is the float of the same value too
    (exact below [2^53], and the quotient of two such integers is the
    correctly rounded one either way).

    Contents: the model; the real-number semantics of binary64 rounding
    and of the four operations, proved from [SpecFloat]; ranges of float
    expressions; the claims about the evaluation function; the loop
    invariant and the claims about the trial loop. *)

From Stdlib Require Import ZArith Lia Bool List String.
From Stdlib Require Import Reals Lra.
From Stdlib Require Import Floats.
Import ListNotations.

Set Warnings "-inexact-float".

(** ** Python numerics *)

Module Py.

Local Open Scope float_scope.

(** [max(a, b)]: the first argument is kept unless the second compares
    greater ([b > a]); a NaN never compares greater.  Where the script
    passes the integer [0], Python returns that integer, which is the
    float [0] in value. *)
Definition max (a b : float) : float := if a <? b then b else a.

(** [min(a, b)]: the first argument is kept unless the second compares
    smaller ([b < a]). *)
Definition min (a b : float) : float := if b <? a then b else a.

(** A result dictionary: keys in insertion order. *)
Definition dict := list (string * float).

Fixpoint get (k : string) (d : dict) : option float :=
  match d with
  | [] => None
  | (k', v) :: d' => if String.eqb k k' then Some v else get k d'
  end.

Definition keys (d : dict) : list string := map fst d.

(** [math.isfinite]. *)
Definition isfinite (x : float) : bool :=
  negb (is_nan x) && negb (is_infinity x).

End Py.

(** ** The evaluation function *)

Section Evaluation.

Local Open Scope float_scope.
Local Open Scope string_scope.

Variables aqueous_composition organic_composition
          stirring_speed stirring_time temperature : float.

(** Recovery before clamping (lines 31-36). *)
Definition recovery_raw : float :=
  0.3
  + 0.5 * organic_composition
  + 0.2 * (stirring_speed / 500)
  + 0.1 * (temperature / 40).

Definition recovery : float :=
  Py.min (Py.max recovery_raw 0) 1.0 * 100.

(** Purity before clamping (line 40). *)
Definition purity_raw : float :=
  85 + 10 * aqueous_composition + 5 * (temperature - 20) / 36.

Definition purity : float :=
  Py.min (Py.max purity_raw 0) 100.

(** Separation efficiency before clamping (line 44). *)
Definition separation_raw : float :=
  0.7 + 0.2 * (1 - stirring_speed / 500) + 0.1 * (temperature - 4) / 36.

Definition separation : float :=
  Py.min (Py.max separation_raw 0) 1.0 * 100.

(** Emulsion before clamping (line 48). *)
Definition emulsion_raw : float :=
  0.1 + 0.6 * (stirring_speed / 500) + 0.3 * (stirring_time / 120).

Definition emulsion : float :=
  Py.min (Py.max emulsion_raw 0) 1.0 * 100.

(** Total time before clamping (line 52); it reads the clamped
    percentages [S] and [E]. *)
Definition total_time_raw : float :=
  stirring_time + 50 + 1000 * (1 - separation / 100)
  + 500 * (emulsion / 100).

Definition total_time : float :=
  Py.min (Py.max total_time_raw 0) 2000.

Definition evaluate_extraction : Py.dict :=
  [ ("recovery", recovery); ("purity", purity);
    ("separation", separation); ("emulsion", emulsion);
    ("total_time", total_time) ].

End Evaluation.

(** ** The experiment declaration (lines 62-80) *)

Record ObjectiveProperties := {
  minimize : bool;
  threshold : option float
}.

Definition objectives : list (string * ObjectiveProperties) :=
  [ ("recovery"%string,   {| minimize := false; threshold := Some 50.0%float |});
    ("purity"%string,     {| minimize := false; threshold := Some 90.0%float |});
    ("separation"%string, {| minimize := false; threshold := None |});
    ("emulsion"%string,   {| minimize := true;  threshold := None |});
    ("total_time"%string, {| minimize := true;  threshold := Some 1200.0%float |}) ].

(** The four searched parameters; [organic_composition] is not among them. *)
Record parameterization := {
  p_aqueous_composition : float;
  p_stirring_speed : float;
  p_stirring_time : float;
  p_temperature : float
}.

(** Closed-interval membership, by float comparison (false on NaN). *)
Definition within (lo hi x : float) : bool :=
  ((lo <=? x) && (x <=? hi))%float.

(** The declared bounds of the experiment (lines 64-67). *)
Definition in_bounds (p : parameterization) : bool :=
  within 0.0 1.0 (p_aqueous_composition p)
  && within 100 500 (p_stirring_speed p)
  && within 10 120 (p_stirring_time p)
  && within 4 40 (p_temperature p).

(** The range each metric is clamped to (lines 37, 41, 45, 49 and 53). *)
Definition objective_range (name : string) : float * float :=
  if String.eqb name "total_time" then (0, 2000)%float else (0, 100)%float.

Definition num_trials : nat := 30.

(** ** The optimiser boundary *)

Inductive trial_status := Running | Completed | Failed.

Record trial := {
  t_index : nat;
  t_parameters : parameterization;
  t_status : trial_status;
  t_raw_data : option Py.dict
}.

(** Modelled from the spec: the external optimiser ([AxClient]) is not part
    of the repository.  Section 6 of the specification gives its boundary:
    [get_next_trial() -> (parameterization, trial_index)] with trial indices
    that only grow, and [complete_trial(trial_index, raw_data)], which
    rejects an index that is unknown or already completed; section 4.4 has
    the candidate requested "for the next free trial index".  The
    experiment is the list of its trials, and a new trial takes the next
    free index, the number of trials so far.  How a candidate is chosen is
    left open: [suggest] is any function of the history. *)
Definition AxClient := list trial.

Definition set_completed (raw : Py.dict) (t : trial) : trial :=
  {| t_index := t_index t; t_parameters := t_parameters t;
     t_status := Completed; t_raw_data := Some raw |}.

Fixpoint update_trial (idx : nat) (f : trial -> trial) (c : AxClient) : AxClient :=
  match c with
  | [] => []
  | t :: c' => if Nat.eqb (t_index t) idx then f t :: c'
               else t :: update_trial idx f c'
  end.

Fixpoint find_trial (idx : nat) (c : AxClient) : option trial :=
  match c with
  | [] => None
  | t :: c' => if Nat.eqb (t_index t) idx then Some t else find_trial idx c'
  end.

Definition complete_trial (c : AxClient) (trial_index : nat) (raw_data : Py.dict)
  : option AxClient :=
  match find_trial trial_index c with
  | Some t =>
      match t_status t with
      | Running => Some (update_trial trial_index (set_completed raw_data) c)
      | _ => None
      end
  | None => None
  end.

(** ** The trial loop (lines 83-109) *)

(** Calls made by the loop, in program order. *)
Inductive event :=
| Call_get_next_trial (trial_index : nat) (p : parameterization)
| Call_evaluate_extraction (aqueous organic speed time temp : float)
| Call_complete_trial (trial_index : nat) (raw_data : Py.dict).

(** Control points of the script, named after the driver states of the
    specification: [idle] before the loop, [awaiting_candidate] at the loop
    head, [evaluating] once [get_next_trial] has returned, [done] after the
    loop (or after an exception left it). *)
Inductive driver_state :=
| idle
| awaiting_candidate
| evaluating (p : parameterization) (trial_index : nat)
| done.

Record config := {
  pc : driver_state;
  i : nat;                      (* the loop variable *)
  ax_client : AxClient;
  log : list event;
  stdout : list nat;            (* the counts printed by the progress line *)
  failure : option nat          (* the trial whose report raised *)
}.

Definition initial : config :=
  {| pc := idle; i := 0; ax_client := []; log := []; stdout := [];
     failure := None |}.

Section Driver.

(** The optimiser's choice of the next candidate, from the history. *)
Variable suggest : AxClient -> parameterization.

Definition get_next_trial (c : AxClient) : parameterization * nat * AxClient :=
  let p := suggest c in
  let idx := List.length c in
  (p, idx,
   c ++ [ {| t_index := idx; t_parameters := p;
             t_status := Running; t_raw_data := None |} ]).

(** One step of the script with trial budget [N]. *)
Definition step (N : nat) (c : config) : option config :=
  match pc c with
  | idle =>
      Some {| pc := awaiting_candidate; i := 0; ax_client := ax_client c;
              log := log c; stdout := stdout c; failure := failure c |}
  | awaiting_candidate =>
      if Nat.ltb (i c) N then
        let '(p, idx, ax') := get_next_trial (ax_client c) in
        Some {| pc := evaluating p idx; i := i c; ax_client := ax';
                log := log c ++ [Call_get_next_trial idx p];
                stdout := stdout c; failure := failure c |}
      else
        Some {| pc := done; i := i c; ax_client := ax_client c;
                log := log c; stdout := stdout c; failure := failure c |}
  | evaluating p idx =>
      let aqueous_composition := p_aqueous_composition p in
      let organic_composition := (1.0 - aqueous_composition)%float in
      let stirring_speed := p_stirring_speed p in
      let stirring_time := p_stirring_time p in
      let temperature := p_temperature p in
      let results :=
        evaluate_extraction aqueous_composition organic_composition
                            stirring_speed stirring_time temperature in
      let log' :=
        log c ++ [Call_evaluate_extraction aqueous_composition
                    organic_composition stirring_speed stirring_time
                    temperature;
                  Call_complete_trial idx results] in
      match complete_trial (ax_client c) idx results with
      | Some ax' =>
          Some {| pc := awaiting_candidate; i := S (i c); ax_client := ax';
                  log := log';
                  stdout := if Nat.eqb ((i c + 1) mod 5) 0
                            then stdout c ++ [i c + 1] else stdout c;
                  failure := failure c |}
      | None =>
          Some {| pc := done; i := i c; ax_client := ax_client c;
                  log := log'; stdout := stdout c; failure := Some idx |}
      end
  | done => None
  end.

(** At most [fuel] steps. *)
Fixpoint run (N fuel : nat) (c : config) : config :=
  match fuel with
  | O => c
  | S fuel' =>
      match step N c with
      | Some c' => run N fuel' c'
      | None => c
      end
  end.

End Driver.

(** Trial indices requested, in order. *)
Fixpoint requested (l : list event) : list nat :=
  match l with
  | [] => []
  | Call_get_next_trial idx _ :: l' => idx :: requested l'
  | _ :: l' => requested l'
  end.

(** Trial indices reported, in order. *)
Fixpoint reported (l : list event) : list nat :=
  match l with
  | [] => []
  | Call_complete_trial idx _ :: l' => idx :: reported l'
  | _ :: l' => reported l'
  end.

(** Trials requested and not yet reported after the calls of [l]. *)
Definition in_flight (l : list event) : nat :=
  List.length (requested l) - List.length (reported l).

Definition finished (t : trial) : bool :=
  match t_status t with
  | Running => false
  | _ => true
  end.

Definition is_completed (t : trial) : bool :=
  match t_status t with
  | Completed => true
  | _ => false
  end.

(** What holds of the experiment and of the log between two iterations,
    after [n] of them. *)
Definition settled (n : nat) (c : config) : Prop :=
  map t_index (ax_client c) = seq 0 n
  /\ forallb is_completed (ax_client c) = true
  /\ requested (log c) = seq 0 n
  /\ reported (log c) = seq 0 n.

(** The loop invariant, by control point. *)
Definition inv (N : nat) (c : config) : Prop :=
  failure c = None /\ i c <= N /\
  match pc c with
  | idle => i c = 0 /\ settled 0 c
  | awaiting_candidate => settled (i c) c
  | evaluating p idx =>
      idx = i c /\ i c < N /\
      exists c0,
        ax_client c =
          c0 ++ [ {| t_index := idx; t_parameters := p;
                     t_status := Running; t_raw_data := None |} ]
        /\ map t_index c0 = seq 0 (i c)
        /\ forallb is_completed c0 = true
        /\ requested (log c) = seq 0 (S (i c))
        /\ reported (log c) = seq 0 (i c)
  | done => i c = N /\ settled N c
  end.

(** Every prefix of the log is a run of consecutive requests and reports,
    with at most one request ahead of the reports. *)
Definition sequenced (l : list event) : Prop :=
  forall l1 l2, l = l1 ++ l2 ->
    exists k, reported l1 = seq 0 k
              /\ (requested l1 = seq 0 k \/ requested l1 = seq 0 (S k)).

(** ** The run in closed form *)

(** What the loop evaluates for a candidate (lines 89-102): the derived
    fraction, then [evaluate_extraction]. *)
Definition results_of (p : parameterization) : Py.dict :=
  evaluate_extraction (p_aqueous_composition p)
    (1.0 - p_aqueous_composition p)%float
    (p_stirring_speed p) (p_stirring_time p) (p_temperature p).

(** The experiment after [n] iterations: each trial holds the candidate
    suggested on the trials before it and the results of that candidate. *)
Fixpoint replay (suggest : AxClient -> parameterization) (n : nat) : AxClient :=
  match n with
  | O => []
  | S k =>
      replay suggest k
      ++ [ {| t_index := k;
              t_parameters := suggest (replay suggest k);
              t_status := Completed;
              t_raw_data := Some (results_of (suggest (replay suggest k))) |} ]
  end.

(** The three calls of one iteration. *)
Definition trial_calls (t : trial) : list event :=
  [ Call_get_next_trial (t_index t) (t_parameters t);
    Call_evaluate_extraction
      (p_aqueous_composition (t_parameters t))
      (1.0 - p_aqueous_composition (t_parameters t))%float
      (p_stirring_speed (t_parameters t))
      (p_stirring_time (t_parameters t))
      (p_temperature (t_parameters t));
    Call_complete_trial (t_index t) (results_of (t_parameters t)) ].

(** The counts the progress line prints in [n] iterations (lines 108-109). *)
Definition progress (n : nat) : list nat :=
  filter (fun k => Nat.eqb (k mod 5) 0) (seq 1 n).

Definition is_running (t : trial) : bool :=
  match t_status t with
  | Running => true
  | _ => false
  end.

Definition is_failed (t : trial) : bool :=
  match t_status t with
  | Failed => true
  | _ => false
  end.

(** ** The evaluation function as Python runs it

    A function call runs in a world it can read and change: the module's
    global names and the state of a random generator.  The body of
    [evaluate_extraction] is given here as syntax and run by an
    interpreter over such a world, so that what the function reads and
    writes is a property of its body. *)

Module Ast.

(** Python numbers with the operators the body uses.  An operator can
    raise ([None]): [ZeroDivisionError], or [OverflowError] on integers
    too large for a float.  [num_lt] is [<]. *)
Class Number (V : Type) := {
  num_int : Z -> V;
  num_float : float -> V;
  num_add : V -> V -> option V;
  num_sub : V -> V -> option V;
  num_mul : V -> V -> option V;
  num_truediv : V -> V -> option V;
  num_lt : V -> V -> bool
}.

Inductive operator := Add | Sub | Mult | Div.

Inductive expr :=
| IntLit (n : Z)
| FloatLit (x : float)
| Name (id : string)
| BinOp (left : expr) (op : operator) (right : expr)
| Call (func : string) (arg1 arg2 : expr)   (* [func(arg1, arg2)] *)
| Random.                                   (* [random.random()] *)

Inductive stmt :=
| Assign (target : string) (value : expr).

(** A function: its parameters, the names it declares [global], its
    assignments, and the dictionary display it returns. *)
Record FunctionDef := {
  args : list string;
  global_names : list string;
  body : list stmt;
  returns : list (string * expr)
}.

Definition target_of (s : stmt) : string :=
  match s with Assign x _ => x end.

Definition value_of (s : stmt) : expr :=
  match s with Assign _ e => e end.

Definition mem (x : string) (l : list string) : bool :=
  existsb (String.eqb x) l.

(** A name is local to the function when it is a parameter or assigned
    somewhere in the body, and not declared [global]. *)
Definition is_local (f : FunctionDef) (x : string) : bool :=
  mem x (args f ++ map target_of (body f)) && negb (mem x (global_names f)).

Fixpoint lookup {V : Type} (x : string) (l : list (string * V)) : option V :=
  match l with
  | [] => None
  | (y, v) :: l' => if String.eqb x y then Some v else lookup x l'
  end.

(** What a call can read and change besides its arguments. *)
Record world (V : Type) := {
  globals : list (string * V);   (* the module's names bound to numbers *)
  generator : nat -> V;          (* the numbers the generator will draw *)
  draws : nat                    (* how many it has drawn *)
}.

Arguments globals {V}.
Arguments generator {V}.
Arguments draws {V}.

(** Neither [min] nor [max] is rebound by the module. *)
Definition builtins_visible {V : Type} (w : world V) : Prop :=
  lookup "min" (globals w) = None /\ lookup "max" (globals w) = None.

Section Interpreter.

Context {V : Type} {number : Number V}.
Variable f : FunctionDef.

Definition apply_operator (op : operator) : V -> V -> option V :=
  match op with
  | Add => num_add
  | Sub => num_sub
  | Mult => num_mul
  | Div => num_truediv
  end.

(** The built-in functions of two arguments, as [Py.min] and [Py.max]. *)
Definition builtin (func : string) : option (V -> V -> option V) :=
  if String.eqb func "min"
  then Some (fun a b => Some (if num_lt b a then b else a))
  else if String.eqb func "max"
  then Some (fun a b => Some (if num_lt a b then b else a))
  else None.

(** The callee a name denotes: a local or a global bound to a number is
    not callable ([TypeError] at the call); an unbound local and an
    unknown name raise at once. *)
Definition callee (w : world V) (env : list (string * V)) (func : string)
  : option (V -> V -> option V) :=
  if is_local f func then
    match lookup func env with
    | Some _ => Some (fun _ _ => None)
    | None => None
    end
  else
    match lookup func (globals w) with
    | Some _ => Some (fun _ _ => None)
    | None => builtin func
    end.

Definition draw (w : world V) : world V :=
  {| globals := globals w; generator := generator w; draws := S (draws w) |}.

Fixpoint eval (w : world V) (env : list (string * V)) (e : expr)
  : option V * world V :=
  match e with
  | IntLit n => (Some (num_int n), w)
  | FloatLit x => (Some (num_float x), w)
  | Name id =>
      (if is_local f id then lookup id env else lookup id (globals w), w)
  | BinOp l op r =>
      match eval w env l with
      | (Some x, w1) =>
          match eval w1 env r with
          | (Some y, w2) => (apply_operator op x y, w2)
          | (None, w2) => (None, w2)
          end
      | (None, w1) => (None, w1)
      end
  | Call func a1 a2 =>
      match callee w env func with
      | Some g =>
          match eval w env a1 with
          | (Some x, w1) =>
              match eval w1 env a2 with
              | (Some y, w2) => (g x y, w2)
              | (None, w2) => (None, w2)
              end
          | (None, w1) => (None, w1)
          end
      | None => (None, w)
      end
  | Random => (Some (generator w (draws w)), draw w)
  end.

Definition set_global (x : string) (v : V) (w : world V) : world V :=
  {| globals := (x, v) :: globals w; generator := generator w;
     draws := draws w |}.

(** The assignments, in order: to the module's name when the target is
    declared [global], to the local frame otherwise. *)
Fixpoint exec (w : world V) (env : list (string * V)) (ss : list stmt)
  : option (list (string * V)) * world V :=
  match ss with
  | [] => (Some env, w)
  | Assign x e :: ss' =>
      match eval w env e with
      | (Some v, w1) =>
          if mem x (global_names f) then exec (set_global x v w1) env ss'
          else exec w1 ((x, v) :: env) ss'
      | (None, w1) => (None, w1)
      end
  end.

(** The dictionary display, its values evaluated left to right. *)
Fixpoint display (w : world V) (env : list (string * V))
    (items : list (string * expr)) : option (list (string * V)) * world V :=
  match items with
  | [] => (Some [], w)
  | (k, e) :: items' =>
      match eval w env e with
      | (Some v, w1) =>
          match display w1 env items' with
          | (Some d, w2) => (Some ((k, v) :: d), w2)
          | (None, w2) => (None, w2)
          end
      | (None, w1) => (None, w1)
      end
  end.

(** A call with positional arguments: the returned dictionary, or [None]
    when an exception leaves the function; and the world afterwards. *)
Definition call (w : world V) (vs : list V)
  : option (list (string * V)) * world V :=
  if Nat.eqb (List.length vs) (List.length (args f)) then
    match exec w (combine (args f) vs) (body f) with
    | (Some env, w1) => display w1 env (returns f)
    | (None, w1) => (None, w1)
    end
  else (None, w).

(** The body reads no name but its locals, calls nothing but the
    built-ins, and draws no random number. *)
Fixpoint reads_locals_only (e : expr) : bool :=
  match e with
  | IntLit _ | FloatLit _ => true
  | Name id => is_local f id
  | BinOp l _ r => reads_locals_only l && reads_locals_only r
  | Call func a1 a2 =>
      negb (is_local f func)
      && (String.eqb func "min" || String.eqb func "max")
      && reads_locals_only a1 && reads_locals_only a2
  | Random => false
  end.

Definition self_contained : bool :=
  match global_names f with [] => true | _ => false end
  && forallb (fun s => reads_locals_only (value_of s)) (body f)
  && forallb (fun ke => reads_locals_only (snd ke)) (returns f).

End Interpreter.

(** Python floats: the four operators round to nearest and never raise,
    except division by zero. *)
Definition float_of_int (n : Z) : float :=
  SF2Prim (binary_normalize prec emax n 0 false).

#[global] Instance float_Number : Number float := {|
  num_int := float_of_int;
  num_float := fun x => x;
  num_add := fun x y => Some (x + y)%float;
  num_sub := fun x y => Some (x - y)%float;
  num_mul := fun x y => Some (x * y)%float;
  num_truediv := fun x y => if (y =? 0)%float then None else Some (x / y)%float;
  num_lt := PrimFloat.ltb
|}.

Local Open Scope string_scope.

(** [evaluate_extraction] (lines 9-55). *)
Definition evaluate_extraction_def : FunctionDef :=
  let clamp x hi := Call "min" (Call "max" (Name x) (IntLit 0)) hi in
  {| args := ["aqueous_composition"; "organic_composition";
              "stirring_speed"; "stirring_time"; "temperature"];
     global_names := [];
     body :=
       [ Assign "R"
           (BinOp
              (BinOp
                 (BinOp (FloatLit 0.3) Add
                    (BinOp (FloatLit 0.5) Mult (Name "organic_composition")))
                 Add
                 (BinOp (FloatLit 0.2) Mult
                    (BinOp (Name "stirring_speed") Div (IntLit 500))))
              Add
              (BinOp (FloatLit 0.1) Mult
                 (BinOp (Name "temperature") Div (IntLit 40))));
         Assign "R" (BinOp (clamp "R" (FloatLit 1.0)) Mult (IntLit 100));
         Assign "P"
           (BinOp
              (BinOp (IntLit 85) Add
                 (BinOp (IntLit 10) Mult (Name "aqueous_composition")))
              Add
              (BinOp
                 (BinOp (IntLit 5) Mult
                    (BinOp (Name "temperature") Sub (IntLit 20)))
                 Div (IntLit 36)));
         Assign "P" (clamp "P" (IntLit 100));
         Assign "S"
           (BinOp
              (BinOp (FloatLit 0.7) Add
                 (BinOp (FloatLit 0.2) Mult
                    (BinOp (IntLit 1) Sub
                       (BinOp (Name "stirring_speed") Div (IntLit 500)))))
              Add
              (BinOp
                 (BinOp (FloatLit 0.1) Mult
                    (BinOp (Name "temperature") Sub (IntLit 4)))
                 Div (IntLit 36)));
         Assign "S" (BinOp (clamp "S" (FloatLit 1.0)) Mult (IntLit 100));
         Assign "E"
           (BinOp
              (BinOp (FloatLit 0.1) Add
                 (BinOp (FloatLit 0.6) Mult
                    (BinOp (Name "stirring_speed") Div (IntLit 500))))
              Add
              (BinOp (FloatLit 0.3) Mult
                 (BinOp (Name "stirring_time") Div (IntLit 120))));
         Assign "E" (BinOp (clamp "E" (FloatLit 1.0)) Mult (IntLit 100));
         Assign "T"
           (BinOp
              (BinOp
                 (BinOp (Name "stirring_time") Add (IntLit 50))
                 Add
                 (BinOp (IntLit 1000) Mult
                    (BinOp (IntLit 1) Sub
                       (BinOp (Name "S") Div (IntLit 100)))))
              Add
              (BinOp (IntLit 500) Mult
                 (BinOp (Name "E") Div (IntLit 100))));
         Assign "T" (clamp "T" (IntLit 2000)) ];
     returns :=
       [ ("recovery", Name "R"); ("purity", Name "P");
         ("separation", Name "S"); ("emulsion", Name "E");
         ("total_time", Name "T") ] |}.

End Ast.

(** ** Binary64 numbers and their real values

    The operations of the primitive floats are specified by [SpecFloat]
    ([FloatAxioms]).  These definitions relate that specification to the
    real numbers. *)

Module Binary64.

Local Open Scope R_scope.

(** Powers of two. *)
Definition bpow (e : Z) : R := powerRZ 2 e.

Arguments bpow : simpl never.

(** The real [x] lies in [[m, m+1)] at the position [l]: on [m], below,
    at or above the middle. *)
Definition inb (m : Z) (l : location) (x : R) : Prop :=
  match l with
  | loc_Exact => x = IZR m
  | loc_Inexact Lt => IZR m < x < IZR m + / 2
  | loc_Inexact Eq => x = IZR m + / 2
  | loc_Inexact Gt => IZR m + / 2 < x < IZR m + 1
  end.

(** [z] is the integer nearest to [x], the even one on a tie. *)
Definition rne (x : R) (z : Z) : Prop :=
  Rabs (IZR z - x) <= / 2 /\ (Rabs (IZR z - x) = / 2 -> Z.even z = true).

(** The real value of a number; zero for infinities and NaN. *)
Definition SF2R (f : spec_float) : R :=
  match f with
  | S754_finite s m e => IZR (cond_Zopp s (Zpos m)) * bpow e
  | _ => 0
  end.

Definition is_finite_SF (f : spec_float) : bool :=
  match f with
  | S754_finite _ _ _ | S754_zero _ => true
  | _ => false
  end.

(** [f] is the valid finite number of sign [sx] and magnitude [v]. *)
Definition encodes (sx : bool) (v : R) (f : spec_float) : Prop :=
  match f with
  | S754_zero s => s = sx /\ v = 0
  | S754_finite s m e =>
      s = sx /\ bounded prec emax m e = true /\ v = IZR (Zpos m) * bpow e
  | _ => False
  end.

(** Valid and finite. *)
Definition fin (f : spec_float) : Prop :=
  valid_binary f = true /\ is_finite_SF f = true.

(** [v] is the rounding of the positive real [x]: its binade [k] fixes the
    exponent [fexp k], and the mantissa is the nearest integer, ties to
    even. *)
Definition Rnd_pos (x v : R) : Prop :=
  exists k z,
    bpow (k - 1) <= x < bpow k
    /\ rne (x * bpow (- fexp prec emax k)) z
    /\ v = IZR z * bpow (fexp prec emax k).

(** The rounding of any real: zero to zero, and symmetric in the sign. *)
Definition Rnd (x v : R) : Prop :=
  (x = 0 /\ v = 0) \/ (0 < x /\ Rnd_pos x v) \/ (x < 0 /\ Rnd_pos (- x) (- v)).

(** What a comparison result says of two reals. *)
Definition cmp_holds (c : option comparison) (a b : R) : Prop :=
  match c with
  | Some Lt => a < b
  | Some Eq => a = b
  | Some Gt => b < a
  | None => False
  end.

(** The real value of a primitive float. *)
Definition B2R (x : float) : R := SF2R (Prim2SF x).

Definition finite (x : float) : Prop := is_finite_SF (Prim2SF x) = true.

(** Magnitude at most [2^500]: far from overflow under the four
    operations. *)
Definition small (x : float) : bool := (abs x <=? 0x1p500)%float.

(** Not below [2^-500]: a divisor that cannot cause an overflow. *)
Definition large (x : float) : bool := (0x1p-500 <=? x)%float.

Definition nonneg (c : float) : bool := (0 <=? c)%float.

(** [x] is finite and lies between [l] and [h], both of small magnitude. *)
Definition in_range (l h x : float) : Prop :=
  small l = true /\ small h = true /\ finite x /\ B2R l <= B2R x <= B2R h.

End Binary64.

Import Binary64.

(** [x] and [x'] are finite numbers between [l] and [h], both of small
    magnitude, and [x] is not above [x']. *)
Definition le_in (l h x x' : float) : Prop :=
  in_range l h x /\ in_range l h x' /\ (B2R x <= B2R x')%R.

(** Whether a value meets the threshold declared for an objective (lines
    69-75): at least the threshold when the objective is maximised, at
    most the threshold when it is minimised; an objective without a
    threshold is always met. *)
Definition meets_threshold (o : ObjectiveProperties) (v : float) : bool :=
  match threshold o with
  | None => true
  | Some thr => if minimize o then (v <=? thr)%float else (thr <=? v)%float
  end.

Fixpoint objective (name : string) (l : list (string * ObjectiveProperties))
  : option ObjectiveProperties :=
  match l with
  | [] => None
  | (k, o) :: l' => if String.eqb name k then Some o else objective name l'
  end.

(** The value the loop reports for an objective: [results[name]] for the
    results of candidate [p]. *)
Definition metric (name : string) (p : parameterization) : float :=
  match Py.get name (results_of p) with
  | Some v => v
  | None => nan
  end.

(** * Binary64 arithmetic

    The operations of the primitive floats are specified by [SpecFloat]
    ([FloatAxioms]).  This part relates that specification to the real
    numbers: each operation returns the rounding to nearest, ties to even,
    of the exact result, and rounding is monotone. *)

Section Rounding.

Local Open Scope R_scope.

Lemma bpow_gt_0 e : 0 < bpow e.
Proof. apply powerRZ_lt. lra. Qed.

Lemma bpow_plus e1 e2 : bpow (e1 + e2) = bpow e1 * bpow e2.
Proof. apply powerRZ_add. lra. Qed.

Lemma bpow_0 : bpow 0 = 1.
Proof. reflexivity. Qed.

Lemma bpow_1 : bpow 1 = 2.
Proof. unfold bpow. simpl. lra. Qed.

Lemma bpow_m1 : bpow (-1) = / 2.
Proof. unfold bpow. simpl. f_equal. lra. Qed.

Lemma bpow_opp e : bpow (- e) = / bpow e.
Proof.
  assert (H : bpow (- e) * bpow e = 1).
  { rewrite <- bpow_plus. replace (- e + e)%Z with 0%Z by lia. apply bpow_0. }
  pose proof (bpow_gt_0 e). apply (Rmult_eq_reg_r (bpow e)); [|lra].
  rewrite H. field. lra.
Qed.

Lemma bpow_succ e : bpow (e + 1) = 2 * bpow e.
Proof. rewrite bpow_plus, bpow_1. lra. Qed.

Lemma bpow_IZR (e : Z) : (0 <= e)%Z -> bpow e = IZR (2 ^ e).
Proof.
  intro H. pattern e. apply natlike_ind; [reflexivity| |exact H].
  intros n Hn IH. unfold Z.succ. rewrite bpow_succ, IH, Z.pow_add_r by lia.
  rewrite mult_IZR. change (2 ^ 1)%Z with 2%Z. lra.
Qed.

Lemma bpow_le e1 e2 : (e1 <= e2)%Z -> bpow e1 <= bpow e2.
Proof.
  intro H. replace e2 with (e1 + (e2 - e1))%Z by lia.
  rewrite bpow_plus, (bpow_IZR (e2 - e1)) by lia.
  assert (1 <= IZR (2 ^ (e2 - e1))).
  { apply IZR_le. assert (0 < 2 ^ (e2 - e1))%Z by (apply Z.pow_pos_nonneg; lia). lia. }
  pose proof (bpow_gt_0 e1). nra.
Qed.

Lemma bpow_lt e1 e2 : (e1 < e2)%Z -> bpow e1 < bpow e2.
Proof.
  intro H. assert (H1 : bpow (e1 + 1) <= bpow e2) by (apply bpow_le; lia).
  rewrite bpow_succ in H1. pose proof (bpow_gt_0 e1). lra.
Qed.

Lemma bpow_lt_inv e1 e2 : bpow e1 < bpow e2 -> (e1 < e2)%Z.
Proof.
  intro H. destruct (Z_lt_le_dec e1 e2) as [|Hle]; [assumption|].
  apply bpow_le in Hle. lra.
Qed.

Lemma bpow_le_inv e1 e2 : bpow e1 <= bpow e2 -> (e1 <= e2)%Z.
Proof.
  intro H. destruct (Z_lt_le_dec e2 e1) as [Hlt|]; [|assumption].
  apply bpow_lt in Hlt. lra.
Qed.

(** The binade of a positive real is unique. *)
Lemma mag_unique (x : R) (k k' : Z) :
  bpow (k - 1) <= x < bpow k -> bpow (k' - 1) <= x < bpow k' -> k = k'.
Proof.
  intros (H1 & H2) (H3 & H4).
  assert (k - 1 < k')%Z by (apply bpow_lt_inv; lra).
  assert (k' - 1 < k)%Z by (apply bpow_lt_inv; lra).
  lia.
Qed.

(** ** Digits *)

Lemma digits2_pos_bounds (m : positive) :
  (2 ^ (Zpos (digits2_pos m) - 1) <= Zpos m < 2 ^ Zpos (digits2_pos m))%Z.
Proof.
  induction m as [m IH|m IH|]; simpl digits2_pos.
  - rewrite Pos2Z.inj_succ.
    replace (Z.succ (Zpos (digits2_pos m)) - 1)%Z with (Zpos (digits2_pos m) - 1 + 1)%Z by lia.
    unfold Z.succ. rewrite !Z.pow_add_r by lia. change (2 ^ 1)%Z with 2%Z. lia.
  - rewrite Pos2Z.inj_succ.
    replace (Z.succ (Zpos (digits2_pos m)) - 1)%Z with (Zpos (digits2_pos m) - 1 + 1)%Z by lia.
    unfold Z.succ. rewrite !Z.pow_add_r by lia. change (2 ^ 1)%Z with 2%Z. lia.
  - simpl. lia.
Qed.

(** ** Right shifts keep track of the position of the exact value *)

Lemma inb_bounds m l x : inb m l x -> IZR m <= x < IZR m + 1.
Proof. destruct l as [|[| |]]; simpl; lra. Qed.

Lemma loc_of_record_of_loc m l :
  loc_of_shr_record (shr_record_of_loc m l) = l /\ shr_m (shr_record_of_loc m l) = m.
Proof. destruct l as [|[| |]]; split; reflexivity. Qed.

Lemma shr_1_inb (mrs : shr_record) (x : R) :
  (0 <= shr_m mrs)%Z ->
  inb (shr_m mrs) (loc_of_shr_record mrs) x ->
  (0 <= shr_m (shr_1 mrs))%Z
  /\ inb (shr_m (shr_1 mrs)) (loc_of_shr_record (shr_1 mrs)) (x * / 2).
Proof.
  destruct mrs as [m r s]. simpl shr_m. intros Hm H.
  destruct m as [|p|p]; [| |lia].
  - destruct r, s; simpl in *; split; try lia; lra.
  - destruct p as [p|p|].
    + assert (E : IZR (Z.pos p~1) = 2 * IZR (Z.pos p) + 1).
      { change (Z.pos p~1) with (2 * Z.pos p + 1)%Z. rewrite plus_IZR, mult_IZR. reflexivity. }
      destruct r, s; simpl in *; rewrite E in H; split; try lia; lra.
    + assert (E : IZR (Z.pos p~0) = 2 * IZR (Z.pos p)).
      { change (Z.pos p~0) with (2 * Z.pos p)%Z. rewrite mult_IZR. reflexivity. }
      destruct r, s; simpl in *; rewrite E in H; split; try lia; lra.
    + destruct r, s; simpl in *; split; try lia; lra.
Qed.

Lemma iter_pos_shr_1 (p : positive) :
  forall (mrs : shr_record) (x : R),
  (0 <= shr_m mrs)%Z ->
  inb (shr_m mrs) (loc_of_shr_record mrs) x ->
  (0 <= shr_m (iter_pos shr_1 p mrs))%Z
  /\ inb (shr_m (iter_pos shr_1 p mrs))
         (loc_of_shr_record (iter_pos shr_1 p mrs)) (x * bpow (- Zpos p)).
Proof.
  induction p as [p IH|p IH|]; intros mrs x Hm H; simpl iter_pos.
  - destruct (shr_1_inb mrs x Hm H) as (H1 & H2).
    destruct (IH _ _ H1 H2) as (H3 & H4).
    destruct (IH _ _ H3 H4) as (H5 & H6).
    split; [assumption|].
    replace (x * bpow (- Z.pos p~1)) with (x * / 2 * bpow (- Z.pos p) * bpow (- Z.pos p)); [assumption|].
    replace (- Z.pos p~1)%Z with (-1 + (- Z.pos p + - Z.pos p))%Z by lia.
    rewrite !bpow_plus, bpow_m1. ring.
  - destruct (IH _ _ Hm H) as (H3 & H4).
    destruct (IH _ _ H3 H4) as (H5 & H6).
    split; [assumption|].
    replace (x * bpow (- Z.pos p~0)) with (x * bpow (- Z.pos p) * bpow (- Z.pos p)); [assumption|].
    replace (- Z.pos p~0)%Z with (- Z.pos p + - Z.pos p)%Z by lia.
    rewrite !bpow_plus. ring.
  - change (- Z.pos 1)%Z with (-1)%Z. rewrite bpow_m1. apply shr_1_inb; assumption.
Qed.

Lemma shr_inb (mrs : shr_record) (e n : Z) (x : R) :
  (0 <= n)%Z -> (0 <= shr_m mrs)%Z ->
  inb (shr_m mrs) (loc_of_shr_record mrs) x ->
  let '(mrs', e') := shr mrs e n in
  e' = (e + n)%Z /\ (0 <= shr_m mrs')%Z
  /\ inb (shr_m mrs') (loc_of_shr_record mrs') (x * bpow (- n)).
Proof.
  intros Hn Hm H. unfold shr. destruct n as [|p|p]; [| |lia].
  - simpl. rewrite Rmult_1_r. split; [lia|]. split; assumption.
  - split; [reflexivity|]. apply iter_pos_shr_1; assumption.
Qed.

(** ** Rounding to the nearest integer, ties to even *)

Lemma Rabs_le_inv (x a : R) : Rabs x <= a -> - a <= x <= a.
Proof. unfold Rabs. destruct (Rcase_abs x); lra. Qed.


Lemma round_nearest_even_rne (m : Z) (l : location) (x : R) :
  inb m l x -> rne x (round_nearest_even m l).
Proof.
  unfold rne. destruct l as [|[| |]]; simpl; intro H.
  - subst x. replace (IZR m - IZR m) with 0 by ring. rewrite Rabs_R0. split; intros; lra.
  - destruct (Z.even m) eqn:E.
    + subst x. replace (IZR m - (IZR m + / 2)) with (- / 2) by ring.
      rewrite Rabs_Ropp, Rabs_pos_eq by lra. split; intros; [lra|assumption].
    + subst x. rewrite plus_IZR. replace (IZR m + 1 - (IZR m + / 2)) with (/ 2) by field.
      rewrite Rabs_pos_eq by lra. split; intros; [lra|].
      rewrite Z.even_add, E. reflexivity.
  - split; [apply Rabs_le; lra|]. intro E. exfalso.
    rewrite Rabs_left1 in E by lra. lra.
  - rewrite plus_IZR. split; [apply Rabs_le; lra|]. intro E. exfalso.
    rewrite Rabs_pos_eq in E by lra. lra.
Qed.

Lemma rne_int (n : Z) : rne (IZR n) n.
Proof.
  unfold rne. replace (IZR n - IZR n) with 0 by ring. rewrite Rabs_R0.
  split; intros; lra.
Qed.

Lemma rne_mono (x y : R) (z z' : Z) :
  x <= y -> rne x z -> rne y z' -> (z <= z')%Z.
Proof.
  intros Hxy (H1 & E1) (H2 & E2).
  destruct (Z_lt_le_dec z' z) as [Hlt|]; [|assumption]. exfalso.
  apply Rabs_le_inv in H1. apply Rabs_le_inv in H2.
  assert (Hz : IZR z' + 1 <= IZR z).
  { rewrite <- plus_IZR. apply IZR_le. lia. }
  assert (Ez : IZR z - x = / 2) by lra.
  assert (Ez' : IZR z' - y = - / 2) by lra.
  assert (Z.even z = true).
  { apply E1. rewrite Ez. apply Rabs_pos_eq. lra. }
  assert (Z.even z' = true).
  { apply E2. rewrite Ez', Rabs_Ropp. apply Rabs_pos_eq. lra. }
  assert (z = z' + 1)%Z.
  { apply eq_IZR. rewrite plus_IZR. lra. }
  subst z. rewrite Z.even_add in *. destruct (Z.even z'); discriminate.
Qed.

Lemma rne_unique (x : R) (z z' : Z) : rne x z -> rne x z' -> z = z'.
Proof.
  intros H H'. apply Z.le_antisymm; eapply rne_mono; try eassumption; lra.
Qed.

Lemma rne_ge (x : R) (n z : Z) : IZR n <= x -> rne x z -> (n <= z)%Z.
Proof. intros H Hz. exact (rne_mono _ _ _ _ H (rne_int n) Hz). Qed.

Lemma rne_le (x : R) (n z : Z) : x <= IZR n -> rne x z -> (z <= n)%Z.
Proof. intros H Hz. exact (rne_mono _ _ _ _ H Hz (rne_int n)). Qed.

(** ** The rounding core, [binary_round_aux] *)

Lemma fexp_eq (k : Z) : fexp prec emax k = Z.max (k - 53) (-1074).
Proof. reflexivity. Qed.

Lemma scaled_mag (x : R) (a e : Z) :
  bpow (a - 1) <= x * bpow (- e) < bpow a ->
  bpow (a + e - 1) <= x < bpow (a + e).
Proof.
  intros (H1 & H2). pose proof (bpow_gt_0 e) as He.
  assert (Ex : x = x * bpow (- e) * bpow e).
  { rewrite bpow_opp. field. lra. }
  replace (a + e - 1)%Z with (a - 1 + e)%Z by lia.
  rewrite !bpow_plus. split.
  - rewrite Ex. apply Rmult_le_compat_r; lra.
  - rewrite Ex. apply Rmult_lt_compat_r; lra.
Qed.

Lemma mag_of_digits (p : positive) (ex : Z) (l : location) (x : R) :
  inb (Zpos p) l (x * bpow (- ex)) ->
  bpow (Zpos (digits2_pos p) + ex - 1) <= x < bpow (Zpos (digits2_pos p) + ex).
Proof.
  intro H. apply inb_bounds in H. apply scaled_mag.
  destruct (digits2_pos_bounds p) as (H1 & H2).
  rewrite (bpow_IZR (Zpos (digits2_pos p) - 1)), (bpow_IZR (Zpos (digits2_pos p))) by lia.
  split.
  - apply IZR_le in H1. lra.
  - assert (H3 : (Zpos p + 1 <= 2 ^ Zpos (digits2_pos p))%Z) by lia.
    apply IZR_le in H3. rewrite plus_IZR in H3. lra.
Qed.

Lemma pow2_le_inv (a b : Z) : (0 <= b)%Z -> (2 ^ a <= 2 ^ b)%Z -> (0 <= a)%Z -> (a <= b)%Z.
Proof.
  intros Hb H Ha. destruct (Z_lt_le_dec b a) as [Hlt|]; [|assumption].
  assert (2 ^ b < 2 ^ a)%Z by (apply Z.pow_lt_mono_r; lia). lia.
Qed.

Lemma pow2_lt_inv (a b : Z) : (0 <= b)%Z -> (2 ^ a < 2 ^ b)%Z -> (0 <= a)%Z -> (a < b)%Z.
Proof.
  intros Hb H Ha. destruct (Z_lt_le_dec a b) as [|Hle]; [assumption|].
  assert (2 ^ b <= 2 ^ a)%Z by (apply Z.pow_le_mono_r; lia). lia.
Qed.

Theorem binary_round_aux_correct (sx : bool) (mx ex : Z) (lx : location)
    (x : R) (k : Z) :
  (0 <= mx)%Z -> bpow (k - 1) <= x < bpow k -> (k <= 1023)%Z ->
  inb mx lx (x * bpow (- ex)) -> (ex <= fexp prec emax k)%Z ->
  exists z,
    rne (x * bpow (- fexp prec emax k)) z
    /\ encodes sx (IZR z * bpow (fexp prec emax k))
         (binary_round_aux prec emax sx mx ex lx).
Proof.
  intros Hmx Hk Hk1023 Hinb Hex.
  pose proof (bpow_gt_0 (k - 1)) as Hkpos.
  assert (Hx : 0 < x) by lra.
  set (e1 := fexp prec emax k) in *.
  assert (He1 : e1 = Z.max (k - 53) (-1074)) by apply fexp_eq.
  (* the first shift brings the exponent to [e1] *)
  assert (Hfe : fexp prec emax (Zdigits2 mx + ex) = e1).
  { destruct mx as [|p|p]; [| |lia].
    - simpl Zdigits2. pose proof (inb_bounds _ _ _ Hinb) as Hb. simpl in Hb.
      assert (Hxe : x < bpow ex).
      { pose proof (bpow_gt_0 ex). replace x with (x * bpow (- ex) * bpow ex).
        - rewrite <- (Rmult_1_l (bpow ex)) at 2.
          apply Rmult_lt_compat_r; lra.
        - rewrite bpow_opp. field. lra. }
      assert (k - 1 < ex)%Z by (apply bpow_lt_inv; lra).
      rewrite fexp_eq. lia.
    - simpl Zdigits2. pose proof (mag_of_digits p ex lx x Hinb) as Hm.
      rewrite <- (mag_unique x _ _ Hk Hm). reflexivity. }
  unfold binary_round_aux, shr_fexp. rewrite Hfe.
  destruct (loc_of_record_of_loc mx lx) as (Eloc & Em).
  pose proof (shr_inb (shr_record_of_loc mx lx) ex (e1 - ex) (x * bpow (- ex))) as Hs.
  rewrite Eloc, Em in Hs. specialize (Hs ltac:(lia) Hmx Hinb).
  destruct (shr (shr_record_of_loc mx lx) ex (e1 - ex)) as [mrs1 e1'].
  destruct Hs as (-> & Hm1 & Hinb1).
  replace (ex + (e1 - ex))%Z with e1 by lia.
  replace (x * bpow (- ex) * bpow (- (e1 - ex))) with (x * bpow (- e1)) in Hinb1.
  2:{ rewrite Rmult_assoc, <- bpow_plus. f_equal. f_equal. lia. }
  apply round_nearest_even_rne in Hinb1.
  set (z := round_nearest_even (shr_m mrs1) (loc_of_shr_record mrs1)) in *.
  exists z. split; [assumption|].
  pose proof (bpow_gt_0 (- e1)) as Hbe1.
  assert (Hz0 : (0 <= z)%Z).
  { apply (rne_ge (x * bpow (- e1))); [|assumption]. simpl. nra. }
  (* the scaled value lies in its binade *)
  assert (Hup : x * bpow (- e1) < bpow (k - e1)).
  { unfold Z.sub at 1. rewrite bpow_plus. apply Rmult_lt_compat_r; lra. }
  assert (Hlo : bpow (k - 1 - e1) <= x * bpow (- e1)).
  { unfold Z.sub at 1. rewrite bpow_plus. apply Rmult_le_compat_r; lra. }
  destruct z as [|pz|pz] eqn:Ez; [| |lia].
  - (* rounded to zero *)
    simpl Zdigits2. rewrite (fexp_eq (0 + e1)).
    assert (Hn : (Z.max (0 + e1 - 53) (-1074) - e1 <= 0)%Z) by lia.
    unfold shr. destruct (Z.max (0 + e1 - 53) (-1074) - e1)%Z; try lia; simpl; split; try reflexivity; lra.
  - (* a positive mantissa *)
    simpl Zdigits2. set (d2 := Zpos (digits2_pos pz)).
    destruct (digits2_pos_bounds pz) as (Hd1 & Hd2). fold d2 in Hd1, Hd2.
    assert (Hd2pos : (0 < d2)%Z) by (unfold d2; lia).
    assert (Hke : (0 <= k - e1)%Z).
    { destruct (Z_lt_le_dec (k - e1) 0) as [Hneg|]; [|assumption]. exfalso.
      assert (bpow (k - e1) <= bpow (-1)) by (apply bpow_le; lia).
      rewrite bpow_m1 in *. destruct Hinb1 as (Hr & _).
      apply Rabs_le_inv in Hr.
      assert (IZR (Z.pos pz) < 1) by lra.
      apply lt_IZR in H0. lia. }
    assert (Hzle : (Z.pos pz <= 2 ^ (k - e1))%Z).
    { apply (rne_le (x * bpow (- e1))); [|assumption].
      rewrite <- bpow_IZR by assumption. lra. }
    assert (Hdk : (d2 + e1 <= k + 1)%Z).
    { assert (2 ^ (d2 - 1) <= 2 ^ (k - e1))%Z by lia.
      apply pow2_le_inv in H; lia. }
    assert (Hdk' : (k - 1 - e1 >= 0 -> k <= d2 + e1)%Z).
    { intro Hge.
      assert (2 ^ (k - 1 - e1) <= Z.pos pz)%Z.
      { apply (rne_ge (x * bpow (- e1))); [|assumption].
        rewrite <- bpow_IZR by lia. lra. }
      assert (2 ^ (k - 1 - e1) < 2 ^ d2)%Z by lia.
      apply pow2_lt_inv in H0; lia. }
    rewrite (fexp_eq (d2 + e1)).
    assert (Hn : (Z.max (d2 + e1 - 53) (-1074) - e1 = 0
                  \/ Z.max (d2 + e1 - 53) (-1074) - e1 = 1)%Z) by lia.
    destruct Hn as [Hn | Hn]; rewrite Hn.
    + unfold shr, shr_record_of_loc. cbv beta iota zeta. cbn [shr_m].
      assert (Hle : Z.leb e1 (emax - prec) = true).
      { apply Z.leb_le. change (emax - prec)%Z with 971%Z. lia. }
      rewrite Hle. simpl. split; [reflexivity|]. split; [|reflexivity].
      unfold bounded, canonical_mantissa. fold d2. rewrite fexp_eq.
      rewrite Hle, andb_true_r. apply Z.eqb_eq. lia.
    + assert (Hd54 : d2 = 54%Z) by lia.
      assert (Hk53 : (k - e1 = 53)%Z) by lia.
      assert (Epz : Z.pos pz = (2 ^ 53)%Z).
      { rewrite Hk53 in Hzle. rewrite Hd54 in Hd1. simpl in Hd1. lia. }
      injection Epz as ->.
      unfold shr, shr_record_of_loc. cbv beta iota zeta. cbn [shr_m iter_pos shr_1].
      assert (Hle : Z.leb (e1 + 1) (emax - prec) = true).
      { apply Z.leb_le. change (emax - prec)%Z with 971%Z. lia. }
      rewrite Hle. simpl. split; [reflexivity|]. split.
      * unfold bounded, canonical_mantissa. rewrite fexp_eq, Hle, andb_true_r.
        apply Z.eqb_eq. simpl digits2_pos. lia.
      * rewrite bpow_succ. lra.
Qed.

(** ** Rounding of a real number to binary64: exact cases and monotonicity *)

Lemma encodes_fin (sx : bool) (v : R) (f : spec_float) :
  encodes sx v f -> fin f /\ SF2R f = if sx then - v else v.
Proof.
  destruct f as [s|s| |s m e]; simpl; try tauto.
  - intros (-> & ->). split; [split; reflexivity|]. destruct sx; lra.
  - intros (-> & Hb & ->). split; [split; [assumption|reflexivity]|].
    destruct sx; simpl; [|reflexivity].
    change (Z.neg m) with (- Z.pos m)%Z. rewrite opp_IZR. ring.
Qed.

Lemma iter_xO (d m : positive) :
  Zpos (Pos.iter xO m d) = (Zpos m * 2 ^ Zpos d)%Z.
Proof.
  induction d as [|d IH] using Pos.peano_ind.
  - simpl. lia.
  - rewrite Pos.iter_succ, Pos2Z.inj_succ, Z.pow_succ_r by lia.
    change (Z.pos (Pos.iter xO m d)~0) with (2 * Z.pos (Pos.iter xO m d))%Z.
    rewrite IH. ring.
Qed.

Lemma shl_align_correct (mx : positive) (ex e' : Z) :
  let '(mz, ez) := shl_align mx ex e' in
  IZR (Zpos mz) * bpow ez = IZR (Zpos mx) * bpow ex
  /\ (ez <= ex)%Z /\ (ez <= e')%Z /\ (e' <= ex -> ez = e')%Z.
Proof.
  unfold shl_align. destruct (e' - ex)%Z as [|d|d] eqn:E.
  - repeat split; lia.
  - repeat split; lia.
  - assert (He : ex = (e' + Zpos d)%Z) by lia.
    rewrite iter_xO, mult_IZR, <- bpow_IZR by lia.
    split; [|lia]. rewrite He, bpow_plus. ring.
Qed.

Lemma binary_round_correct (sx : bool) (mx : positive) (ex : Z) :
  IZR (Zpos mx) * bpow ex < bpow 1023 ->
  exists v, Rnd_pos (IZR (Zpos mx) * bpow ex) v
            /\ encodes sx v (binary_round prec emax sx mx ex).
Proof.
  intro Hsmall. set (x := IZR (Zpos mx) * bpow ex) in *.
  set (k := (Zpos (digits2_pos mx) + ex)%Z).
  assert (Hinb0 : inb (Zpos mx) loc_Exact (x * bpow (- ex))).
  { simpl. unfold x. rewrite Rmult_assoc, <- bpow_plus.
    replace (ex + - ex)%Z with 0%Z by lia. rewrite bpow_0. ring. }
  assert (Hk : bpow (k - 1) <= x < bpow k).
  { unfold k. replace (Z.pos (digits2_pos mx) + ex - 1)%Z
      with (Z.pos (digits2_pos mx) + ex - 1)%Z by lia.
    eapply mag_of_digits. exact Hinb0. }
  assert (Hk1023 : (k <= 1023)%Z).
  { assert (k - 1 < 1023)%Z by (apply bpow_lt_inv; lra). lia. }
  unfold binary_round. fold k.
  pose proof (shl_align_correct mx ex (fexp prec emax k)) as Hs.
  destruct (shl_align mx ex (fexp prec emax k)) as [mz ez].
  destruct Hs as (Hv & Hle & Hle' & _).
  destruct (binary_round_aux_correct sx (Zpos mz) ez loc_Exact x k)
    as (z & Hz & Henc); try assumption; try lia.
  - simpl. pose proof (bpow_gt_0 ez). unfold x. rewrite <- Hv.
    rewrite Rmult_assoc, <- bpow_plus.
    replace (ez + - ez)%Z with 0%Z by lia. rewrite bpow_0. ring.
  - exists (IZR z * bpow (fexp prec emax k)). split; [|assumption].
    exists k, z. tauto.
Qed.

Lemma binary_normalize_correct (m e : Z) :
  Rabs (IZR m * bpow e) < bpow 1023 ->
  exists v, Rnd (IZR m * bpow e) v
            /\ fin (binary_normalize prec emax m e false)
            /\ SF2R (binary_normalize prec emax m e false) = v.
Proof.
  intro Hsmall. pose proof (bpow_gt_0 e) as He.
  destruct m as [|p|p]; simpl binary_normalize.
  - exists 0. split; [left; split; lra|]. split; [split|]; reflexivity.
  - assert (Hp : 0 < IZR (Z.pos p)) by (apply IZR_lt; lia).
    assert (Hx : 0 < IZR (Z.pos p) * bpow e) by nra.
    rewrite Rabs_pos_eq in Hsmall by lra.
    destruct (binary_round_correct false p e Hsmall) as (v & Hv & Henc).
    apply encodes_fin in Henc. destruct Henc as (Hfin & Hval).
    exists v. split; [right; left; split; assumption|]. tauto.
  - assert (Hp : 0 < IZR (Z.pos p)) by (apply IZR_lt; lia).
    assert (En : IZR (Z.neg p) = - IZR (Z.pos p)).
    { change (Z.neg p) with (- Z.pos p)%Z. apply opp_IZR. }
    rewrite En in *.
    assert (Hx : 0 < IZR (Z.pos p) * bpow e) by nra.
    replace (- IZR (Z.pos p) * bpow e) with (- (IZR (Z.pos p) * bpow e)) in * by ring.
    rewrite Rabs_Ropp, Rabs_pos_eq in Hsmall by lra.
    destruct (binary_round_correct true p e Hsmall) as (v & Hv & Henc).
    apply encodes_fin in Henc. destruct Henc as (Hfin & Hval).
    exists (- v). split; [|tauto].
    right; right. split; [lra|]. rewrite !Ropp_involutive. assumption.
Qed.

(** A representable number rounds to itself. *)
Lemma Rnd_representable (f : spec_float) : fin f -> Rnd (SF2R f) (SF2R f).
Proof.
  intros (Hv & Hf). destruct f as [s|s| |s m e]; try discriminate.
  - left. split; reflexivity.
  - simpl in Hv. unfold bounded, canonical_mantissa in Hv.
    apply andb_prop in Hv. destruct Hv as (Hc & _). apply Z.eqb_eq in Hc.
    assert (Hp : 0 < IZR (Z.pos m)) by (apply IZR_lt; lia).
    pose proof (bpow_gt_0 e) as He.
    assert (Hpos : Rnd_pos (IZR (Z.pos m) * bpow e) (IZR (Z.pos m) * bpow e)).
    { exists (Zpos (digits2_pos m) + e)%Z, (Zpos m). rewrite Hc. split.
      - apply (mag_of_digits m e loc_Exact). simpl.
        rewrite Rmult_assoc, <- bpow_plus.
        replace (e + - e)%Z with 0%Z by lia. rewrite bpow_0. ring.
      - split; [|reflexivity].
        rewrite Rmult_assoc, <- bpow_plus.
        replace (e + - e)%Z with 0%Z by lia. rewrite bpow_0, Rmult_1_r.
        apply rne_int. }
    destruct s; simpl SF2R.
    + right; right.
      change (Z.neg m) with (- Z.pos m)%Z. rewrite opp_IZR.
      split; [nra|].
      replace (- (- IZR (Z.pos m) * bpow e)) with (IZR (Z.pos m) * bpow e) by ring.
      assumption.
    + right; left. split; [nra|assumption].
Qed.

Lemma Rnd_pos_nonneg (x v : R) : 0 < x -> Rnd_pos x v -> 0 <= v.
Proof.
  intros Hx (k & z & Hk & Hz & ->).
  pose proof (bpow_gt_0 (fexp prec emax k)).
  pose proof (bpow_gt_0 (- fexp prec emax k)).
  assert (0 <= z)%Z by (apply (rne_ge _ 0 z) in Hz; [assumption | simpl; nra]).
  apply IZR_le in H1. nra.
Qed.

(** The rounding of a positive real stays within its binade. *)
Lemma Rnd_pos_binade (x : R) (k z : Z) :
  bpow (k - 1) <= x < bpow k ->
  rne (x * bpow (- fexp prec emax k)) z ->
  IZR z * bpow (fexp prec emax k) <= bpow k
  /\ ((fexp prec emax k <= k - 1)%Z ->
      bpow (k - 1) <= IZR z * bpow (fexp prec emax k)).
Proof.
  intros (Hk1 & Hk2) Hz. set (e := fexp prec emax k) in *.
  pose proof (bpow_gt_0 e) as He. pose proof (bpow_gt_0 (- e)) as He'.
  assert (Hup : x * bpow (- e) < bpow (k - e)).
  { unfold Z.sub. rewrite bpow_plus. apply Rmult_lt_compat_r; lra. }
  assert (Hlo : bpow (k - 1 - e) <= x * bpow (- e)).
  { unfold Z.sub at 1. rewrite bpow_plus. apply Rmult_le_compat_r; lra. }
  split.
  - destruct (Z_lt_le_dec (k - e) 0) as [Hneg|Hpos].
    + assert (bpow (k - e) <= bpow (-1)) by (apply bpow_le; lia).
      rewrite bpow_m1 in *. destruct Hz as (Hr & _).
      apply Rabs_le_inv in Hr.
      assert (Hz1 : IZR z < 1) by lra. apply lt_IZR in Hz1.
      assert (Hz0 : IZR z <= 0) by (apply IZR_le; lia).
      pose proof (bpow_gt_0 k). nra.
    + assert (Hzle : (z <= 2 ^ (k - e))%Z).
      { apply (rne_le (x * bpow (- e))); [|assumption].
        rewrite <- bpow_IZR by assumption. lra. }
      apply IZR_le in Hzle. rewrite <- bpow_IZR in Hzle by assumption.
      replace (bpow k) with (bpow (k - e) * bpow e).
      * apply Rmult_le_compat_r; lra.
      * rewrite <- bpow_plus. f_equal. lia.
  - intro Hle.
    assert (Hzge : (2 ^ (k - 1 - e) <= z)%Z).
    { apply (rne_ge (x * bpow (- e))); [|assumption].
      rewrite <- bpow_IZR by lia. lra. }
    apply IZR_le in Hzge. rewrite <- bpow_IZR in Hzge by lia.
    replace (bpow (k - 1)) with (bpow (k - 1 - e) * bpow e).
    * apply Rmult_le_compat_r; lra.
    * rewrite <- bpow_plus. f_equal. lia.
Qed.

Lemma Rnd_pos_mono (x y v w : R) :
  0 < x -> x <= y -> Rnd_pos x v -> Rnd_pos y w -> v <= w.
Proof.
  intros Hx Hxy (kx & zx & Hkx & Hzx & ->) (ky & zy & Hky & Hzy & ->).
  assert (Hk : (kx <= ky)%Z).
  { assert (kx - 1 < ky)%Z by (apply bpow_lt_inv; lra). lia. }
  pose proof (fexp_eq kx) as Ex. pose proof (fexp_eq ky) as Ey.
  destruct (Z.eq_dec (fexp prec emax kx) (fexp prec emax ky)) as [E|NE].
  - rewrite E in *. pose proof (bpow_gt_0 (fexp prec emax ky)).
    pose proof (bpow_gt_0 (- fexp prec emax ky)).
    assert (zx <= zy)%Z.
    { apply (rne_mono (x * bpow (- fexp prec emax ky))
                      (y * bpow (- fexp prec emax ky))); try assumption.
      apply Rmult_le_compat_r; lra. }
    apply IZR_le in H1. apply Rmult_le_compat_r; lra.
  - destruct (Rnd_pos_binade x kx zx Hkx Hzx) as (Hux & _).
    destruct (Rnd_pos_binade y ky zy Hky Hzy) as (_ & Hly).
    assert (bpow kx <= bpow (ky - 1)) by (apply bpow_le; lia).
    specialize (Hly ltac:(lia)). lra.
Qed.

Lemma Rnd_pos_unique (x v w : R) : Rnd_pos x v -> Rnd_pos x w -> v = w.
Proof.
  intros (kx & zx & Hkx & Hzx & ->) (ky & zy & Hky & Hzy & ->).
  pose proof (mag_unique x kx ky Hkx Hky). subst ky.
  rewrite (rne_unique _ _ _ Hzx Hzy). reflexivity.
Qed.

Theorem Rnd_mono (x y v w : R) : x <= y -> Rnd x v -> Rnd y w -> v <= w.
Proof.
  intros Hxy [(Hx & ->) | [(Hx & Hv) | (Hx & Hv)]]
             [(Hy & ->) | [(Hy & Hw) | (Hy & Hw)]]; try lra.
  - apply Rnd_pos_nonneg in Hw; lra.
  - apply (Rnd_pos_mono x y); assumption.
  - apply Rnd_pos_nonneg in Hv; lra.
  - apply Rnd_pos_nonneg in Hv; [|lra]. apply Rnd_pos_nonneg in Hw; lra.
  - assert (- w <= - v); [|lra].
    apply (Rnd_pos_mono (- y) (- x)); try assumption; lra.
Qed.


(** Representable bounds of the exact value bound the rounded value. *)
Corollary Rnd_between (x v : R) (lo hi : spec_float) :
  fin lo -> fin hi -> SF2R lo <= x <= SF2R hi -> Rnd x v ->
  SF2R lo <= v <= SF2R hi.
Proof.
  intros Hlo Hhi (H1 & H2) Hv. split.
  - exact (Rnd_mono _ _ _ _ H1 (Rnd_representable lo Hlo) Hv).
  - exact (Rnd_mono _ _ _ _ H2 Hv (Rnd_representable hi Hhi)).
Qed.

(** ** The operations *)

Lemma cond_Zopp_IZR (s : bool) (z : Z) :
  IZR (cond_Zopp s z) = if s then - IZR z else IZR z.
Proof. destruct s; simpl; [apply opp_IZR | reflexivity]. Qed.

Lemma fin_opp (s : bool) (m : positive) (e : Z) :
  fin (S754_finite s m e) -> fin (S754_finite (negb s) m e)
  /\ SF2R (S754_finite (negb s) m e) = - SF2R (S754_finite s m e).
Proof.
  intros (Hv & _). split; [split; [exact Hv | reflexivity]|].
  simpl. rewrite !cond_Zopp_IZR. destruct s; simpl; ring.
Qed.

Lemma Rnd_0 : Rnd 0 0.
Proof. left. split; reflexivity. Qed.

Lemma aligned_sum (sx sy : bool) (mx my : positive) (ex ey : Z) (sub : bool) :
  let ez := Z.min ex ey in
  IZR ((if sub then Z.sub else Z.add)
         (cond_Zopp sx (Zpos (fst (shl_align mx ex ez))))
         (cond_Zopp sy (Zpos (fst (shl_align my ey ez))))) * bpow ez
  = if sub then SF2R (S754_finite sx mx ex) - SF2R (S754_finite sy my ey)
    else SF2R (S754_finite sx mx ex) + SF2R (S754_finite sy my ey).
Proof.
  intro ez.
  pose proof (shl_align_correct mx ex ez) as Hx.
  pose proof (shl_align_correct my ey ez) as Hy.
  destruct (shl_align mx ex ez) as [mzx ezx].
  destruct (shl_align my ey ez) as [mzy ezy].
  destruct Hx as (Hx & _ & _ & Ex). destruct Hy as (Hy & _ & _ & Ey).
  rewrite Ex in Hx by (unfold ez; lia). rewrite Ey in Hy by (unfold ez; lia).
  simpl fst. simpl SF2R.
  destruct sub; [rewrite minus_IZR | rewrite plus_IZR];
    rewrite !cond_Zopp_IZR; destruct sx, sy; lra.
Qed.

Theorem SFadd_correct (x y : spec_float) :
  fin x -> fin y -> Rabs (SF2R x + SF2R y) < bpow 1023 ->
  fin (SF64add x y) /\ Rnd (SF2R x + SF2R y) (SF2R (SF64add x y)).
Proof.
  intros Hx Hy Hsmall. unfold SF64add.
  destruct x as [sx|sx| |sx mx ex]; try (destruct Hx; discriminate);
  destruct y as [sy|sy| |sy my ey]; try (destruct Hy; discriminate).
  - destruct sx, sy; simpl; (split; [split; reflexivity|]);
      rewrite Rplus_0_l; apply Rnd_0.
  - simpl SFadd. split; [assumption|].
    replace (SF2R (S754_zero sx) + SF2R (S754_finite sy my ey))
      with (SF2R (S754_finite sy my ey)) by (simpl; ring).
    apply Rnd_representable. assumption.
  - simpl SFadd. split; [assumption|].
    replace (SF2R (S754_finite sx mx ex) + SF2R (S754_zero sy))
      with (SF2R (S754_finite sx mx ex)) by (simpl; ring).
    apply Rnd_representable. assumption.
  - unfold SFadd. cbv zeta.
    pose proof (aligned_sum sx sy mx my ex ey false) as Hsum. cbv zeta in Hsum.
    rewrite <- Hsum in *.
    destruct (binary_normalize_correct _ _ Hsmall) as (v & Hv & Hfin & Hval).
    rewrite Hval. tauto.
Qed.

Theorem SFsub_correct (x y : spec_float) :
  fin x -> fin y -> Rabs (SF2R x - SF2R y) < bpow 1023 ->
  fin (SF64sub x y) /\ Rnd (SF2R x - SF2R y) (SF2R (SF64sub x y)).
Proof.
  intros Hx Hy Hsmall. unfold SF64sub.
  destruct x as [sx|sx| |sx mx ex]; try (destruct Hx; discriminate);
  destruct y as [sy|sy| |sy my ey]; try (destruct Hy; discriminate).
  - destruct sx, sy; simpl; (split; [split; reflexivity|]);
      rewrite Rminus_0_r; apply Rnd_0.
  - simpl SFsub. destruct (fin_opp sy my ey Hy) as (Hf & Hval).
    split; [assumption|]. rewrite Hval.
    replace (SF2R (S754_zero sx) - SF2R (S754_finite sy my ey))
      with (- SF2R (S754_finite sy my ey)) by (simpl; ring).
    rewrite <- Hval. apply Rnd_representable. assumption.
  - simpl SFsub. split; [assumption|].
    replace (SF2R (S754_finite sx mx ex) - SF2R (S754_zero sy))
      with (SF2R (S754_finite sx mx ex)) by (simpl; ring).
    apply Rnd_representable. assumption.
  - unfold SFsub. cbv zeta.
    pose proof (aligned_sum sx sy mx my ex ey true) as Hsum. cbv zeta in Hsum.
    rewrite <- Hsum in *.
    destruct (binary_normalize_correct _ _ Hsmall) as (v & Hv & Hfin & Hval).
    rewrite Hval. tauto.
Qed.

Lemma bounded_canonical (m : positive) (e : Z) :
  bounded prec emax m e = true ->
  (e = Z.max (Zpos (digits2_pos m) + e - 53) (-1074))%Z /\ (e <= 971)%Z.
Proof.
  unfold bounded, canonical_mantissa. intro H. apply andb_prop in H.
  destruct H as (Hc & He). apply Z.eqb_eq in Hc. apply Z.leb_le in He.
  rewrite fexp_eq in Hc. change (emax - prec)%Z with 971%Z in He. lia.
Qed.

Lemma digits2_pos_mul (mx my : positive) :
  (Zpos (digits2_pos mx) + Zpos (digits2_pos my) - 1
   <= Zpos (digits2_pos (mx * my)))%Z.
Proof.
  destruct (digits2_pos_bounds mx) as (Hx & _).
  destruct (digits2_pos_bounds my) as (Hy & _).
  destruct (digits2_pos_bounds (mx * my)) as (_ & Hxy).
  set (dx := Zpos (digits2_pos mx)) in *. set (dy := Zpos (digits2_pos my)) in *.
  set (d := Zpos (digits2_pos (mx * my))) in *.
  assert (0 < dx)%Z by (unfold dx; lia). assert (0 < dy)%Z by (unfold dy; lia).
  assert (0 < d)%Z by (unfold d; lia).
  assert (H2 : (2 ^ (dx - 1 + (dy - 1)) <= Zpos mx * Zpos my)%Z).
  { rewrite Z.pow_add_r by lia. apply Z.mul_le_mono_nonneg; lia. }
  rewrite Pos2Z.inj_mul in Hxy.
  assert (H3 : (2 ^ (dx - 1 + (dy - 1)) < 2 ^ d)%Z) by lia.
  apply pow2_lt_inv in H3; lia.
Qed.

Lemma Rnd_signed (s : bool) (x v : R) :
  0 < x -> Rnd_pos x v ->
  Rnd (if s then - x else x) (if s then - v else v).
Proof.
  intros Hx Hv. destruct s.
  - right; right. split; [lra|]. rewrite !Ropp_involutive. assumption.
  - right; left. split; assumption.
Qed.

Theorem SFmul_correct (x y : spec_float) :
  fin x -> fin y -> Rabs (SF2R x * SF2R y) < bpow 1023 ->
  fin (SF64mul x y) /\ Rnd (SF2R x * SF2R y) (SF2R (SF64mul x y)).
Proof.
  intros Hx Hy Hsmall. unfold SF64mul.
  destruct x as [sx|sx| |sx mx ex]; try (destruct Hx; discriminate);
  destruct y as [sy|sy| |sy my ey]; try (destruct Hy; discriminate);
  try (simpl; split; [split; reflexivity|];
       rewrite ?Rmult_0_l, ?Rmult_0_r; apply Rnd_0).
  unfold SFmul.
  destruct Hx as (Hbx & _). destruct Hy as (Hby & _). simpl in Hbx, Hby.
  destruct (bounded_canonical _ _ Hbx) as (Hcx & _).
  destruct (bounded_canonical _ _ Hby) as (Hcy & _).
  pose proof (digits2_pos_mul mx my) as Hd.
  set (p := IZR (Zpos (mx * my)) * bpow (ex + ey)).
  assert (Hmx : 0 < IZR (Zpos mx)) by (apply IZR_lt; lia).
  assert (Hmy : 0 < IZR (Zpos my)) by (apply IZR_lt; lia).
  assert (Hp : 0 < p).
  { unfold p. pose proof (bpow_gt_0 (ex + ey)).
    assert (0 < IZR (Zpos (mx * my))) by (apply IZR_lt; lia). nra. }
  assert (Eprod : SF2R (S754_finite sx mx ex) * SF2R (S754_finite sy my ey)
                  = if xorb sx sy then - p else p).
  { unfold p. simpl SF2R. rewrite !cond_Zopp_IZR, Pos2Z.inj_mul, mult_IZR, bpow_plus.
    destruct sx, sy; simpl; ring. }
  rewrite Eprod in *.
  assert (Hsmall' : p < bpow 1023).
  { destruct (xorb sx sy); [rewrite Rabs_Ropp in Hsmall|];
      rewrite Rabs_pos_eq in Hsmall; lra. }
  assert (Hinb : inb (Zpos (mx * my)) loc_Exact (p * bpow (- (ex + ey)))).
  { simpl. unfold p. rewrite Rmult_assoc, <- bpow_plus.
    replace (ex + ey + - (ex + ey))%Z with 0%Z by lia. rewrite bpow_0. ring. }
  set (k := (Zpos (digits2_pos (mx * my)) + (ex + ey))%Z).
  assert (Hk : bpow (k - 1) <= p < bpow k).
  { apply (mag_of_digits _ _ _ _ Hinb). }
  assert (Hk1023 : (k <= 1023)%Z).
  { assert (k - 1 < 1023)%Z by (apply bpow_lt_inv; lra). lia. }
  destruct (binary_round_aux_correct (xorb sx sy) (Zpos (mx * my)) (ex + ey)
              loc_Exact p k) as (z & Hz & Henc); try assumption; try lia.
  - rewrite fexp_eq. unfold k.
    assert (0 < Zpos (digits2_pos mx))%Z by lia.
    assert (0 < Zpos (digits2_pos my))%Z by lia. lia.
  - apply encodes_fin in Henc. destruct Henc as (Hfin & Hval).
    split; [assumption|]. rewrite Hval.
    apply Rnd_signed; [assumption|]. exists k, z. tauto.
Qed.

Lemma new_location_inb (nb r q : Z) :
  (0 < nb)%Z -> (0 <= r < nb)%Z ->
  inb q (new_location nb r) (IZR q + IZR r / IZR nb).
Proof.
  intros Hnb Hr.
  assert (Hnb' : 0 < IZR nb) by (apply IZR_lt; lia).
  set (t := IZR r / IZR nb).
  assert (Et : IZR r = t * IZR nb) by (unfold t; field; lra).
  assert (H2r : IZR (2 * r) = 2 * t * IZR nb) by (rewrite mult_IZR; lra).
  unfold new_location, new_location_even, new_location_odd.
  destruct (Z.eqb_spec r 0) as [->|Hr0].
  - assert (t = 0) by (unfold t; simpl; field; lra).
    destruct (Z.even nb); simpl; lra.
  - assert (Hrpos : 0 < IZR r) by (apply IZR_lt; lia).
    assert (Ht : 0 < t) by nra.
    assert (Hrlt : IZR r < IZR nb) by (apply IZR_lt; lia).
    assert (Ht1 : t < 1) by nra.
    assert (Hlt : (2 * r < nb)%Z -> t < / 2).
    { intro E. apply IZR_lt in E. rewrite H2r in E.
      apply (Rmult_lt_reg_r (IZR nb)); lra. }
    assert (Hgt : (nb < 2 * r)%Z -> / 2 < t).
    { intro E. apply IZR_lt in E. rewrite H2r in E.
      apply (Rmult_lt_reg_r (IZR nb)); lra. }
    assert (Heq : (2 * r = nb)%Z -> t = / 2).
    { intro E. apply (f_equal IZR) in E. rewrite H2r in E.
      apply (Rmult_eq_reg_r (IZR nb)); lra. }
    assert (Er : (r =? 0)%Z = false) by (apply Z.eqb_neq; assumption).
    destruct (Z.even nb) eqn:Eev; cbv beta; rewrite Er.
    + destruct (Z.compare_spec (2 * r) nb) as [E|E|E]; simpl.
      * rewrite (Heq E). reflexivity.
      * specialize (Hlt E). lra.
      * specialize (Hgt E). lra.
    + assert (Hodd : (2 * r <> nb)%Z).
      { intro E. rewrite <- E, Z.even_mul in Eev. discriminate. }
      destruct (Z.compare_spec (2 * r + 1) nb) as [E|E|E]; simpl.
      * specialize (Hlt ltac:(lia)). lra.
      * specialize (Hlt ltac:(lia)). lra.
      * specialize (Hgt ltac:(lia)). lra.
Qed.

Lemma float_mag (m : positive) (e : Z) :
  bpow (Zpos (digits2_pos m) + e - 1) <= IZR (Zpos m) * bpow e
  < bpow (Zpos (digits2_pos m) + e).
Proof.
  apply (mag_of_digits m e loc_Exact). simpl.
  rewrite Rmult_assoc, <- bpow_plus.
  replace (e + - e)%Z with 0%Z by lia. rewrite bpow_0. ring.
Qed.

Theorem SFdiv_correct (x y : spec_float) :
  fin x -> fin y -> SF2R y <> 0 -> Rabs (SF2R x / SF2R y) < bpow 1023 ->
  fin (SF64div x y) /\ Rnd (SF2R x / SF2R y) (SF2R (SF64div x y)).
Proof.
  intros Hx Hy Hy0 Hsmall. unfold SF64div.
  destruct x as [sx|sx| |sx mx ex]; try (destruct Hx; discriminate);
  destruct y as [sy|sy| |sy my ey]; try (destruct Hy; discriminate);
  try (exfalso; apply Hy0; reflexivity).
  - simpl. split; [split; reflexivity|].
    unfold Rdiv. rewrite Rmult_0_l. apply Rnd_0.
  - unfold SFdiv, SFdiv_core_binary. simpl Zdigits2.
    set (d1 := Zpos (digits2_pos mx)). set (d2 := Zpos (digits2_pos my)).
    set (K0 := (d1 + ex - (d2 + ey))%Z).
    set (e' := Z.min (fexp prec emax K0) (ex - ey)).
    set (s := (ex - ey - e')%Z).
    assert (Hs : (0 <= s)%Z) by (unfold s, e'; lia).
    set (m' := match s with
               | 0%Z => Z.pos mx
               | Z.pos _ => Z.shiftl (Z.pos mx) s
               | Z.neg _ => 0%Z
               end).
    assert (Em' : m' = (Zpos mx * 2 ^ s)%Z).
    { unfold m'. destruct s as [|ps|ps] eqn:Es; [simpl; lia| |lia].
      apply Z.shiftl_mul_pow2. lia. }
    pose proof (Z_div_mod m' (Zpos my) ltac:(lia)) as Hdiv.
    destruct (Z.div_eucl m' (Z.pos my)) as [q r].
    destruct Hdiv as (Hqr & Hr).
    assert (Hmx : 0 < IZR (Zpos mx)) by (apply IZR_lt; lia).
    assert (Hmy : 0 < IZR (Zpos my)) by (apply IZR_lt; lia).
    pose proof (bpow_gt_0 ex) as Hbex. pose proof (bpow_gt_0 ey) as Hbey.
    set (A := IZR (Zpos mx) * bpow ex). set (B := IZR (Zpos my) * bpow ey).
    assert (HA : 0 < A) by (unfold A; nra).
    assert (HB : 0 < B) by (unfold B; nra).
    set (X := A / B).
    assert (HX : 0 < X) by (unfold X; apply Rdiv_lt_0_compat; assumption).
    assert (Equo : SF2R (S754_finite sx mx ex) / SF2R (S754_finite sy my ey)
                   = if xorb sx sy then - X else X).
    { unfold X, A, B. simpl SF2R. rewrite !cond_Zopp_IZR.
      destruct sx, sy; simpl; field; lra. }
    rewrite Equo in *.
    assert (Hsmall' : X < bpow 1023).
    { destruct (xorb sx sy); [rewrite Rabs_Ropp in Hsmall|];
        rewrite Rabs_pos_eq in Hsmall; lra. }
    (* the quotient lies within two binades *)
    pose proof (float_mag mx ex) as (HA1 & HA2). fold d1 A in HA1, HA2.
    pose proof (float_mag my ey) as (HB1 & HB2). fold d2 B in HB1, HB2.
    assert (HXlo : bpow (K0 - 1) < X).
    { unfold X. apply (Rmult_lt_reg_r B); [assumption|].
      replace (A / B * B) with A by (field; lra).
      apply Rlt_le_trans with (bpow (K0 - 1) * bpow (d2 + ey)).
      - apply Rmult_lt_compat_l; [apply bpow_gt_0 | assumption].
      - rewrite <- bpow_plus. replace (K0 - 1 + (d2 + ey))%Z with (d1 + ex - 1)%Z
          by (unfold K0; lia). assumption. }
    assert (HXhi : X < bpow (K0 + 1)).
    { unfold X. apply (Rmult_lt_reg_r B); [assumption|].
      replace (A / B * B) with A by (field; lra).
      apply Rlt_le_trans with (bpow (K0 + 1) * bpow (d2 + ey - 1)).
      - rewrite <- bpow_plus. replace (K0 + 1 + (d2 + ey - 1))%Z with (d1 + ex)%Z
          by (unfold K0; lia). assumption.
      - apply Rmult_le_compat_l; [apply Rlt_le, bpow_gt_0 | assumption]. }
    assert (Hk : exists k, (K0 <= k)%Z /\ bpow (k - 1) <= X < bpow k).
    { destruct (Rlt_le_dec X (bpow K0)) as [Hlt|Hge].
      - exists K0. split; [lia|]. lra.
      - exists (K0 + 1)%Z. split; [lia|].
        replace (K0 + 1 - 1)%Z with K0 by lia. lra. }
    destruct Hk as (k & HK0 & Hk).
    assert (Hk1023 : (k <= 1023)%Z).
    { assert (k - 1 < 1023)%Z by (apply bpow_lt_inv; lra). lia. }
    assert (Hinb : inb q (new_location (Z.pos my) r) (X * bpow (- e'))).
    { replace (X * bpow (- e')) with (IZR q + IZR r / IZR (Z.pos my)).
      - apply new_location_inb; lia.
      - assert (Es : bpow ex * bpow (- e') = IZR (2 ^ s) * bpow ey).
        { rewrite <- bpow_IZR, <- !bpow_plus by assumption.
          f_equal. unfold s. lia. }
        apply (f_equal IZR) in Hqr. rewrite Em' in Hqr.
        rewrite plus_IZR, !mult_IZR in Hqr.
        unfold X, A, B.
        replace (IZR (Z.pos mx) * bpow ex / (IZR (Z.pos my) * bpow ey) * bpow (- e'))
          with (IZR (Z.pos mx) * (bpow ex * bpow (- e')) / (IZR (Z.pos my) * bpow ey))
          by (field; lra).
        rewrite Es.
        replace (IZR (Z.pos mx) * (IZR (2 ^ s) * bpow ey) / (IZR (Z.pos my) * bpow ey))
          with (IZR (Z.pos mx) * IZR (2 ^ s) / IZR (Z.pos my)) by (field; lra).
        rewrite Hqr. field. lra. }
    assert (Hq : (0 <= q)%Z).
    { assert (0 <= m')%Z by (rewrite Em'; apply Z.mul_nonneg_nonneg; [lia|];
                             apply Z.pow_nonneg; lia).
      destruct (Z_lt_le_dec q 0) as [Hneg|]; [|assumption]. exfalso.
      assert (Z.pos my * q <= - Z.pos my)%Z by nia. lia. }
    destruct (binary_round_aux_correct (xorb sx sy) q e'
                (new_location (Z.pos my) r) X k)
      as (z & Hz & Henc); try assumption.
    + pose proof (fexp_eq k). pose proof (fexp_eq K0). unfold e'. lia.
    + apply encodes_fin in Henc. destruct Henc as (Hfin & Hval).
      split; [assumption|]. rewrite Hval.
      apply Rnd_signed; [assumption|]. exists k, z. tauto.
Qed.

(** ** Comparison *)

Lemma canonical_lt (m1 m2 : positive) (e1 e2 : Z) :
  bounded prec emax m1 e1 = true -> bounded prec emax m2 e2 = true ->
  (e1 < e2)%Z -> IZR (Zpos m1) * bpow e1 < IZR (Zpos m2) * bpow e2.
Proof.
  intros H1 H2 Hlt.
  destruct (bounded_canonical _ _ H1) as (Hc1 & _).
  destruct (bounded_canonical _ _ H2) as (Hc2 & _).
  destruct (float_mag m1 e1) as (_ & Hu). destruct (float_mag m2 e2) as (Hl & _).
  assert (bpow (Zpos (digits2_pos m1) + e1) <= bpow (Zpos (digits2_pos m2) + e2 - 1))
    by (apply bpow_le; lia).
  lra.
Qed.

Lemma cmp_pos (m1 m2 : positive) (e1 e2 : Z) :
  bounded prec emax m1 e1 = true -> bounded prec emax m2 e2 = true ->
  cmp_holds (Some match Z.compare e1 e2 with
                  | Lt => Lt
                  | Gt => Gt
                  | Eq => Pos.compare_cont Eq m1 m2
                  end)
            (IZR (Zpos m1) * bpow e1) (IZR (Zpos m2) * bpow e2).
Proof.
  intros H1 H2. destruct (Z.compare_spec e1 e2) as [E|E|E].
  - subst e2. fold (Pos.compare m1 m2). pose proof (bpow_gt_0 e1).
    destruct (Pos.compare_spec m1 m2) as [E|E|E]; simpl.
    + subst. reflexivity.
    + apply Rmult_lt_compat_r; [assumption|]. apply IZR_lt. lia.
    + apply Rmult_lt_compat_r; [assumption|]. apply IZR_lt. lia.
  - simpl. apply canonical_lt; assumption.
  - simpl. apply canonical_lt; assumption.
Qed.

Theorem SFcompare_correct (f1 f2 : spec_float) :
  fin f1 -> fin f2 -> cmp_holds (SFcompare f1 f2) (SF2R f1) (SF2R f2).
Proof.
  intros (Hv1 & Hf1) (Hv2 & Hf2).
  destruct f1 as [s1|s1| |s1 m1 e1]; try discriminate;
  destruct f2 as [s2|s2| |s2 m2 e2]; try discriminate.
  - simpl. reflexivity.
  - assert (0 < IZR (Zpos m2) * bpow e2).
    { apply Rmult_lt_0_compat; [apply IZR_lt; lia | apply bpow_gt_0]. }
    simpl. rewrite cond_Zopp_IZR. destruct s2; simpl; lra.
  - assert (0 < IZR (Zpos m1) * bpow e1).
    { apply Rmult_lt_0_compat; [apply IZR_lt; lia | apply bpow_gt_0]. }
    simpl. rewrite cond_Zopp_IZR. destruct s1; simpl; lra.
  - simpl in Hv1, Hv2.
    assert (P1 : 0 < IZR (Zpos m1) * bpow e1).
    { apply Rmult_lt_0_compat; [apply IZR_lt; lia | apply bpow_gt_0]. }
    assert (P2 : 0 < IZR (Zpos m2) * bpow e2).
    { apply Rmult_lt_0_compat; [apply IZR_lt; lia | apply bpow_gt_0]. }
    pose proof (cmp_pos m1 m2 e1 e2 Hv1 Hv2) as Hc.
    unfold SFcompare. simpl SF2R. rewrite !cond_Zopp_IZR.
    destruct s1, s2; simpl; try lra.
    + destruct (Z.compare e1 e2); simpl in *;
        [destruct (Pos.compare_cont Eq m1 m2); simpl in * | |]; lra.
    + exact Hc.
Qed.

Lemma SFltb_correct (f1 f2 : spec_float) :
  fin f1 -> fin f2 -> (SFltb f1 f2 = true <-> SF2R f1 < SF2R f2).
Proof.
  intros H1 H2. pose proof (SFcompare_correct f1 f2 H1 H2) as Hc.
  unfold SFltb. destruct (SFcompare f1 f2) as [[| |]|]; simpl in Hc;
    split; intro; try discriminate; try reflexivity; try lra; tauto.
Qed.

Lemma SFleb_correct (f1 f2 : spec_float) :
  fin f1 -> fin f2 -> (SFleb f1 f2 = true <-> SF2R f1 <= SF2R f2).
Proof.
  intros H1 H2. pose proof (SFcompare_correct f1 f2 H1 H2) as Hc.
  unfold SFleb. destruct (SFcompare f1 f2) as [[| |]|]; simpl in Hc;
    split; intro; try discriminate; try reflexivity; try lra; tauto.
Qed.


(** Between two finite numbers there are only finite numbers. *)
Lemma SFleb_finite (lo hi x : spec_float) :
  is_finite_SF lo = true -> is_finite_SF hi = true ->
  SFleb lo x = true -> SFleb x hi = true -> is_finite_SF x = true.
Proof.
  intros Hlo Hhi H1 H2.
  destruct x as [s|s| |s m e]; try reflexivity; exfalso.
  - destruct lo as [sl|sl| |sl ml el]; try discriminate;
    destruct hi as [sh|sh| |sh mh eh]; try discriminate;
    destruct s; discriminate.
  - destruct lo as [sl|sl| |sl ml el]; discriminate.
Qed.

(** ** The operations on primitive floats *)

Lemma finite_fin (x : float) : finite x -> fin (Prim2SF x).
Proof. intro H. split; [apply Prim2SF_valid | exact H]. Qed.

Theorem add_correct (x y : float) :
  finite x -> finite y -> Rabs (B2R x + B2R y) < bpow 1023 ->
  finite (x + y) /\ Rnd (B2R x + B2R y) (B2R (x + y)).
Proof.
  intros Hx Hy Hs. unfold finite, B2R. rewrite add_spec.
  destruct (SFadd_correct _ _ (finite_fin x Hx) (finite_fin y Hy) Hs) as ((_ & Hf) & Hr).
  split; assumption.
Qed.

Theorem sub_correct (x y : float) :
  finite x -> finite y -> Rabs (B2R x - B2R y) < bpow 1023 ->
  finite (x - y) /\ Rnd (B2R x - B2R y) (B2R (x - y)).
Proof.
  intros Hx Hy Hs. unfold finite, B2R. rewrite sub_spec.
  destruct (SFsub_correct _ _ (finite_fin x Hx) (finite_fin y Hy) Hs) as ((_ & Hf) & Hr).
  split; assumption.
Qed.

Theorem mul_correct (x y : float) :
  finite x -> finite y -> Rabs (B2R x * B2R y) < bpow 1023 ->
  finite (x * y) /\ Rnd (B2R x * B2R y) (B2R (x * y)).
Proof.
  intros Hx Hy Hs. unfold finite, B2R. rewrite mul_spec.
  destruct (SFmul_correct _ _ (finite_fin x Hx) (finite_fin y Hy) Hs) as ((_ & Hf) & Hr).
  split; assumption.
Qed.

Theorem div_correct (x y : float) :
  finite x -> finite y -> B2R y <> 0 -> Rabs (B2R x / B2R y) < bpow 1023 ->
  finite (x / y) /\ Rnd (B2R x / B2R y) (B2R (x / y)).
Proof.
  intros Hx Hy Hy0 Hs. unfold finite, B2R. rewrite div_spec.
  destruct (SFdiv_correct _ _ (finite_fin x Hx) (finite_fin y Hy) Hy0 Hs) as ((_ & Hf) & Hr).
  split; assumption.
Qed.

Lemma ltb_correct (x y : float) :
  finite x -> finite y -> ((x <? y)%float = true <-> B2R x < B2R y).
Proof.
  intros Hx Hy. rewrite ltb_spec.
  apply SFltb_correct; apply finite_fin; assumption.
Qed.

Lemma leb_correct (x y : float) :
  finite x -> finite y -> ((x <=? y)%float = true <-> B2R x <= B2R y).
Proof.
  intros Hx Hy. rewrite leb_spec.
  apply SFleb_correct; apply finite_fin; assumption.
Qed.


Lemma SF2R_abs (f : spec_float) : SF2R (SFabs f) = Rabs (SF2R f).
Proof.
  destruct f as [s|s| |s m e]; simpl; try (symmetry; apply Rabs_R0).
  assert (0 < IZR (Zpos m) * bpow e).
  { apply Rmult_lt_0_compat; [apply IZR_lt; lia | apply bpow_gt_0]. }
  destruct s; simpl.
  - change (Z.neg m) with (- Z.pos m)%Z. rewrite opp_IZR.
    replace (- IZR (Z.pos m) * bpow e) with (- (IZR (Z.pos m) * bpow e)) by ring.
    rewrite Rabs_Ropp, Rabs_pos_eq; lra.
  - rewrite Rabs_pos_eq; lra.
Qed.

Lemma small_correct (x : float) :
  small x = true -> finite x /\ Rabs (B2R x) <= bpow 500.
Proof.
  unfold small, finite, B2R. rewrite leb_spec, abs_spec.
  pose proof (Prim2SF_valid x) as Hv.
  change (Prim2SF 0x1p500%float) with (S754_finite false 4503599627370496 448).
  set (c := S754_finite false 4503599627370496 448).
  assert (Hc : fin c) by (split; reflexivity).
  assert (Ec : SF2R c = bpow 500).
  { unfold c, SF2R, cond_Zopp. change 4503599627370496%Z with (2 ^ 52)%Z.
    rewrite <- bpow_IZR, <- bpow_plus by lia. reflexivity. }
  destruct (Prim2SF x) as [s|s| |s m e] eqn:E; intro H; try discriminate.
  - split; [reflexivity|]. simpl. rewrite Rabs_R0. apply Rlt_le, bpow_gt_0.
  - split; [reflexivity|]. rewrite <- SF2R_abs, <- Ec.
    apply SFleb_correct; [split; [exact Hv | reflexivity] | exact Hc | exact H].
Qed.

Lemma large_correct (x : float) :
  finite x -> large x = true -> bpow (-500) <= B2R x.
Proof.
  unfold large, finite, B2R. rewrite leb_spec.
  pose proof (Prim2SF_valid x) as Hv.
  change (Prim2SF 0x1p-500%float) with (S754_finite false 4503599627370496 (-552)).
  set (c := S754_finite false 4503599627370496 (-552)).
  assert (Hc : fin c) by (split; reflexivity).
  assert (Ec : SF2R c = bpow (-500)).
  { unfold c, SF2R, cond_Zopp. change 4503599627370496%Z with (2 ^ 52)%Z.
    rewrite <- bpow_IZR, <- bpow_plus by lia. reflexivity. }
  intros Hf H. rewrite <- Ec.
  apply SFleb_correct; [exact Hc | split; assumption | exact H].
Qed.

End Rounding.

(** * Ranges of float expressions

    Rounding is monotone, so each operation maps a range of finite numbers
    into the range between the operation's values at the end points.  All
    end points stay below [2^500] in magnitude, which rules overflow
    out. *)

Section Ranges.

Local Open Scope R_scope.

Lemma two_bpow500 : 2 * bpow 500 < bpow 1023.
Proof.
  rewrite <- bpow_succ. apply bpow_lt. lia.
Qed.

Lemma sq_bpow500 : bpow 500 * bpow 500 < bpow 1023.
Proof.
  rewrite <- bpow_plus. apply bpow_lt. lia.
Qed.

Lemma finite_0 : finite 0%float /\ B2R 0%float = 0.
Proof. split; reflexivity. Qed.

Lemma nonneg_correct (c : float) :
  finite c -> nonneg c = true -> 0 <= B2R c.
Proof.
  intros Hc H. destruct finite_0 as (H0 & E0). rewrite <- E0.
  apply leb_correct; assumption.
Qed.

Lemma in_range_abs (l h x : float) :
  in_range l h x -> Rabs (B2R x) <= bpow 500.
Proof.
  intros (Hl & Hh & _ & H1 & H2).
  apply small_correct in Hl. apply small_correct in Hh.
  destruct Hl as (_ & Hl). destruct Hh as (_ & Hh).
  apply Rabs_le_inv in Hl. apply Rabs_le_inv in Hh.
  apply Rabs_le. lra.
Qed.

Lemma in_range_const (c : float) : small c = true -> in_range c c c.
Proof.
  intro H. destruct (small_correct c H) as (Hf & _).
  repeat split; try assumption; lra.
Qed.

Lemma in_range_of_within (l h x : float) :
  small l = true -> small h = true -> within l h x = true -> in_range l h x.
Proof.
  intros Hl Hh H. unfold within in H. apply andb_prop in H.
  destruct H as (H1 & H2).
  destruct (small_correct l Hl) as (Fl & _).
  destruct (small_correct h Hh) as (Fh & _).
  assert (Fx : finite x).
  { unfold finite in *. rewrite leb_spec in H1, H2.
    eapply SFleb_finite; [exact Fl | exact Fh | exact H1 | exact H2]. }
  split; [assumption|]. split; [assumption|]. split; [assumption|].
  split; apply leb_correct; assumption.
Qed.

Lemma within_of_in_range (l h x lo hi : float) :
  in_range l h x ->
  small lo = true -> small hi = true ->
  (lo <=? l)%float = true -> (h <=? hi)%float = true ->
  within lo hi x = true.
Proof.
  intros (Hl & Hh & Fx & H1 & H2) Hlo Hhi Hlol Hhhi.
  destruct (small_correct l Hl) as (Fl & _).
  destruct (small_correct h Hh) as (Fh & _).
  destruct (small_correct lo Hlo) as (Flo & _).
  destruct (small_correct hi Hhi) as (Fhi & _).
  apply leb_correct in Hlol; try assumption.
  apply leb_correct in Hhhi; try assumption.
  unfold within. apply andb_true_intro.
  split; apply leb_correct; try assumption; lra.
Qed.

Lemma in_range_add (l1 h1 l2 h2 x y : float) :
  in_range l1 h1 x -> in_range l2 h2 y ->
  small (l1 + l2) = true -> small (h1 + h2) = true ->
  in_range (l1 + l2) (h1 + h2) (x + y).
Proof.
  intros Hx Hy Sl Sh.
  pose proof (in_range_abs _ _ _ Hx) as Ax.
  pose proof (in_range_abs _ _ _ Hy) as Ay.
  destruct Hx as (Sl1 & Sh1 & Fx & Hx1 & Hx2).
  destruct Hy as (Sl2 & Sh2 & Fy & Hy1 & Hy2).
  destruct (small_correct _ Sl1) as (Fl1 & Al1).
  destruct (small_correct _ Sh1) as (Fh1 & Ah1).
  destruct (small_correct _ Sl2) as (Fl2 & Al2).
  destruct (small_correct _ Sh2) as (Fh2 & Ah2).
  pose proof two_bpow500 as Hb.
  assert (Hsum : forall a b, Rabs a <= bpow 500 -> Rabs b <= bpow 500 ->
                             Rabs (a + b) < bpow 1023).
  { intros a b Ha Hb'. eapply Rle_lt_trans; [apply Rabs_triang|]. lra. }
  destruct (add_correct x y Fx Fy (Hsum _ _ Ax Ay)) as (Fxy & Rxy).
  destruct (add_correct l1 l2 Fl1 Fl2 (Hsum _ _ Al1 Al2)) as (_ & Rl).
  destruct (add_correct h1 h2 Fh1 Fh2 (Hsum _ _ Ah1 Ah2)) as (_ & Rh).
  split; [assumption|]. split; [assumption|]. split; [assumption|]. split.
  - apply (Rnd_mono (B2R l1 + B2R l2) (B2R x + B2R y)); [lra | assumption..].
  - apply (Rnd_mono (B2R x + B2R y) (B2R h1 + B2R h2)); [lra | assumption..].
Qed.

Lemma in_range_sub (l1 h1 l2 h2 x y : float) :
  in_range l1 h1 x -> in_range l2 h2 y ->
  small (l1 - h2) = true -> small (h1 - l2) = true ->
  in_range (l1 - h2) (h1 - l2) (x - y).
Proof.
  intros Hx Hy Sl Sh.
  pose proof (in_range_abs _ _ _ Hx) as Ax.
  pose proof (in_range_abs _ _ _ Hy) as Ay.
  destruct Hx as (Sl1 & Sh1 & Fx & Hx1 & Hx2).
  destruct Hy as (Sl2 & Sh2 & Fy & Hy1 & Hy2).
  destruct (small_correct _ Sl1) as (Fl1 & Al1).
  destruct (small_correct _ Sh1) as (Fh1 & Ah1).
  destruct (small_correct _ Sl2) as (Fl2 & Al2).
  destruct (small_correct _ Sh2) as (Fh2 & Ah2).
  pose proof two_bpow500 as Hb.
  assert (Hdiff : forall a b, Rabs a <= bpow 500 -> Rabs b <= bpow 500 ->
                              Rabs (a - b) < bpow 1023).
  { intros a b Ha Hb'. apply Rabs_le_inv in Ha. apply Rabs_le_inv in Hb'.
    apply Rle_lt_trans with (2 * bpow 500); [apply Rabs_le; lra | assumption]. }
  destruct (sub_correct x y Fx Fy (Hdiff _ _ Ax Ay)) as (Fxy & Rxy).
  destruct (sub_correct l1 h2 Fl1 Fh2 (Hdiff _ _ Al1 Ah2)) as (_ & Rl).
  destruct (sub_correct h1 l2 Fh1 Fl2 (Hdiff _ _ Ah1 Al2)) as (_ & Rh).
  split; [assumption|]. split; [assumption|]. split; [assumption|]. split.
  - apply (Rnd_mono (B2R l1 - B2R h2) (B2R x - B2R y)); [lra | assumption..].
  - apply (Rnd_mono (B2R x - B2R y) (B2R h1 - B2R l2)); [lra | assumption..].
Qed.

Lemma Rabs_mul_small (a b : R) :
  Rabs a <= bpow 500 -> Rabs b <= bpow 500 -> Rabs (a * b) < bpow 1023.
Proof.
  intros Ha Hb. rewrite Rabs_mult.
  pose proof (Rabs_pos a). pose proof (Rabs_pos b). pose proof sq_bpow500.
  apply Rle_lt_trans with (bpow 500 * bpow 500); [|assumption].
  apply Rmult_le_compat; assumption.
Qed.

(** Multiplication by a constant that is not negative. *)
Lemma in_range_mul_l (c l h x : float) :
  small c = true -> nonneg c = true -> in_range l h x ->
  small (c * l) = true -> small (c * h) = true ->
  in_range (c * l) (c * h) (c * x).
Proof.
  intros Sc Nc Hx Sl Sh.
  pose proof (in_range_abs _ _ _ Hx) as Ax.
  destruct Hx as (Sl1 & Sh1 & Fx & Hx1 & Hx2).
  destruct (small_correct _ Sc) as (Fc & Ac).
  destruct (small_correct _ Sl1) as (Fl1 & Al1).
  destruct (small_correct _ Sh1) as (Fh1 & Ah1).
  pose proof (nonneg_correct c Fc Nc) as Hc.
  destruct (mul_correct c x Fc Fx (Rabs_mul_small _ _ Ac Ax)) as (Fcx & Rcx).
  destruct (mul_correct c l Fc Fl1 (Rabs_mul_small _ _ Ac Al1)) as (_ & Rl).
  destruct (mul_correct c h Fc Fh1 (Rabs_mul_small _ _ Ac Ah1)) as (_ & Rh).
  split; [assumption|]. split; [assumption|]. split; [assumption|]. split.
  - apply (Rnd_mono (B2R c * B2R l) (B2R c * B2R x)); [nra | assumption..].
  - apply (Rnd_mono (B2R c * B2R x) (B2R c * B2R h)); [nra | assumption..].
Qed.

Lemma in_range_mul_r (c l h x : float) :
  small c = true -> nonneg c = true -> in_range l h x ->
  small (l * c) = true -> small (h * c) = true ->
  in_range (l * c) (h * c) (x * c).
Proof.
  intros Sc Nc Hx Sl Sh.
  pose proof (in_range_abs _ _ _ Hx) as Ax.
  destruct Hx as (Sl1 & Sh1 & Fx & Hx1 & Hx2).
  destruct (small_correct _ Sc) as (Fc & Ac).
  destruct (small_correct _ Sl1) as (Fl1 & Al1).
  destruct (small_correct _ Sh1) as (Fh1 & Ah1).
  pose proof (nonneg_correct c Fc Nc) as Hc.
  destruct (mul_correct x c Fx Fc (Rabs_mul_small _ _ Ax Ac)) as (Fcx & Rcx).
  destruct (mul_correct l c Fl1 Fc (Rabs_mul_small _ _ Al1 Ac)) as (_ & Rl).
  destruct (mul_correct h c Fh1 Fc (Rabs_mul_small _ _ Ah1 Ac)) as (_ & Rh).
  split; [assumption|]. split; [assumption|]. split; [assumption|]. split.
  - apply (Rnd_mono (B2R l * B2R c) (B2R x * B2R c)); [nra | assumption..].
  - apply (Rnd_mono (B2R x * B2R c) (B2R h * B2R c)); [nra | assumption..].
Qed.

Lemma Rabs_div_small (a c : R) :
  Rabs a <= bpow 500 -> bpow (-500) <= c -> Rabs (a / c) < bpow 1023.
Proof.
  intros Ha Hc. pose proof (bpow_gt_0 (-500)) as Hpos.
  pose proof (bpow_gt_0 500) as Hpos'.
  unfold Rdiv. rewrite Rabs_mult, (Rabs_pos_eq (/ c)).
  2:{ apply Rlt_le, Rinv_0_lt_compat. lra. }
  assert (Hinv : / c <= bpow 500).
  { replace (bpow 500) with (/ bpow (-500)).
    - apply Rinv_le_contravar; assumption.
    - change (-500)%Z with (- (500))%Z. rewrite bpow_opp. apply Rinv_inv. }
  assert (0 < / c) by (apply Rinv_0_lt_compat; lra).
  pose proof (Rabs_pos a). pose proof sq_bpow500.
  apply Rle_lt_trans with (bpow 500 * bpow 500); [|assumption].
  apply Rmult_le_compat; lra.
Qed.

(** Division by a positive constant. *)
Lemma in_range_div_r (c l h x : float) :
  small c = true -> large c = true -> in_range l h x ->
  small (l / c) = true -> small (h / c) = true ->
  in_range (l / c) (h / c) (x / c).
Proof.
  intros Sc Lc Hx Sl Sh.
  pose proof (in_range_abs _ _ _ Hx) as Ax.
  destruct Hx as (Sl1 & Sh1 & Fx & Hx1 & Hx2).
  destruct (small_correct _ Sc) as (Fc & Ac).
  destruct (small_correct _ Sl1) as (Fl1 & Al1).
  destruct (small_correct _ Sh1) as (Fh1 & Ah1).
  pose proof (large_correct c Fc Lc) as Hc.
  pose proof (bpow_gt_0 (-500)) as Hpos.
  assert (Hc0 : B2R c <> 0) by lra.
  assert (Hinv : 0 < / B2R c) by (apply Rinv_0_lt_compat; lra).
  destruct (div_correct x c Fx Fc Hc0 (Rabs_div_small _ _ Ax Hc)) as (Fcx & Rcx).
  destruct (div_correct l c Fl1 Fc Hc0 (Rabs_div_small _ _ Al1 Hc)) as (_ & Rl).
  destruct (div_correct h c Fh1 Fc Hc0 (Rabs_div_small _ _ Ah1 Hc)) as (_ & Rh).
  split; [assumption|]. split; [assumption|]. split; [assumption|]. split.
  - apply (Rnd_mono (B2R l / B2R c) (B2R x / B2R c)); [|assumption..].
    unfold Rdiv. apply Rmult_le_compat_r; lra.
  - apply (Rnd_mono (B2R x / B2R c) (B2R h / B2R c)); [|assumption..].
    unfold Rdiv. apply Rmult_le_compat_r; lra.
Qed.

(** Python's clamp [min(max(x, lo), hi)] of a finite number. *)
Lemma clamp_in_range (x lo hi : float) :
  finite x -> small lo = true -> small hi = true ->
  (lo <=? hi)%float = true ->
  in_range lo hi (Py.min (Py.max x lo) hi).
Proof.
  intros Fx Slo Shi Hle.
  destruct (small_correct _ Slo) as (Flo & _).
  destruct (small_correct _ Shi) as (Fhi & _).
  apply leb_correct in Hle; try assumption.
  split; [assumption|]. split; [assumption|].
  assert (Hmax : finite (Py.max x lo) /\ B2R lo <= B2R (Py.max x lo)).
  { unfold Py.max. destruct (x <? lo)%float eqn:E.
    - split; [assumption | lra].
    - split; [assumption|].
      destruct (Rle_lt_dec (B2R lo) (B2R x)) as [|Hlt]; [assumption|].
      apply ltb_correct in Hlt; try assumption. congruence. }
  destruct Hmax as (Fm & Hm). set (m := Py.max x lo) in *.
  unfold Py.min. destruct (hi <? m)%float eqn:E.
  - split; [assumption | lra].
  - split; [assumption|]. split; [assumption|].
    destruct (Rle_lt_dec (B2R m) (B2R hi)) as [|Hlt]; [assumption|].
    apply ltb_correct in Hlt; try assumption. congruence.
Qed.

(** The clamp leaves a number of the range as it is. *)
Lemma clamp_id (x l h lo hi : float) :
  in_range l h x -> small lo = true -> small hi = true ->
  (lo <=? l)%float = true -> (h <=? hi)%float = true ->
  Py.min (Py.max x lo) hi = x.
Proof.
  intros (Sl & Sh & Fx & H1 & H2) Slo Shi Hlo Hhi.
  destruct (small_correct _ Slo) as (Flo & _).
  destruct (small_correct _ Shi) as (Fhi & _).
  destruct (small_correct _ Sl) as (Fl & _).
  destruct (small_correct _ Sh) as (Fh & _).
  apply leb_correct in Hlo; try assumption.
  apply leb_correct in Hhi; try assumption.
  unfold Py.max, Py.min.
  destruct (x <? lo)%float eqn:E.
  - apply ltb_correct in E; try assumption. lra.
  - destruct (hi <? x)%float eqn:E'; [|reflexivity].
    apply ltb_correct in E'; try assumption. lra.
Qed.

End Ranges.

(** ** Claims about the evaluation function *)

(** *** Determinism

    The body of [evaluate_extraction] is self-contained: a call returns
    what the arguments determine and leaves the world as it found it. *)

Section Purity.

Import Ast.
Context {V : Type} {number : Number V}.
Variable f : FunctionDef.

Lemma eval_self_contained (env : list (string * V)) (e : expr) :
  reads_locals_only f e = true ->
  exists r, forall w, builtins_visible w -> eval f w env e = (r, w).
Proof.
  induction e as [n | x | id | l IHl op r IHr | func a1 IH1 a2 IH2 | ];
    cbn [reads_locals_only eval]; intro H.
  - eexists. intros w _. reflexivity.
  - eexists. intros w _. reflexivity.
  - rewrite H. eexists. intros w _. reflexivity.
  - apply andb_prop in H. destruct H as (Hl & Hr).
    destruct (IHl Hl) as (rl & El). destruct (IHr Hr) as (rr & Er).
    exists (match rl with
            | Some x => match rr with
                        | Some y => apply_operator op x y
                        | None => None
                        end
            | None => None
            end).
    intros w Hw. rewrite (El w Hw). destruct rl; [|reflexivity].
    rewrite (Er w Hw). destruct rr; reflexivity.
  - apply andb_prop in H. destruct H as (H & H2).
    apply andb_prop in H. destruct H as (H & H1).
    apply andb_prop in H. destruct H as (Hloc & Hb).
    apply negb_true_iff in Hloc.
    destruct (IH1 H1) as (r1 & E1). destruct (IH2 H2) as (r2 & E2).
    exists (match builtin func with
            | Some g => match r1 with
                        | Some x => match r2 with
                                    | Some y => g x y
                                    | None => None
                                    end
                        | None => None
                        end
            | None => None
            end).
    intros w Hw. unfold callee. rewrite Hloc.
    assert (Hg : lookup func (globals w) = None).
    { destruct Hw as (Hmin & Hmax). apply orb_prop in Hb.
      destruct Hb as [Hb | Hb]; apply String.eqb_eq in Hb; subst func;
        assumption. }
    rewrite Hg. destruct (builtin func); [|reflexivity].
    rewrite (E1 w Hw). destruct r1; [|reflexivity].
    rewrite (E2 w Hw). destruct r2; reflexivity.
  - discriminate H.
Qed.

Lemma exec_self_contained (ss : list stmt) :
  global_names f = [] ->
  forallb (fun s => reads_locals_only f (value_of s)) ss = true ->
  forall env, exists r, forall w, builtins_visible w ->
    exec f w env ss = (r, w).
Proof.
  intro Hg. induction ss as [|[x e] ss IH]; cbn [forallb exec value_of];
    intros H env.
  - eexists. intros w _. reflexivity.
  - apply andb_prop in H. destruct H as (He & Hss).
    destruct (eval_self_contained env e He) as (r & Er).
    destruct r as [v|].
    + destruct (IH Hss ((x, v) :: env)) as (r' & Er').
      exists r'. intros w Hw. rewrite (Er w Hw), Hg. cbn [mem existsb].
      exact (Er' w Hw).
    + exists None. intros w Hw. rewrite (Er w Hw). reflexivity.
Qed.

Lemma display_self_contained (env : list (string * V))
    (items : list (string * expr)) :
  forallb (fun ke => reads_locals_only f (snd ke)) items = true ->
  exists r, forall w, builtins_visible w -> display f w env items = (r, w).
Proof.
  induction items as [|[k e] items IH]; cbn [forallb display snd]; intro H.
  - eexists. intros w _. reflexivity.
  - apply andb_prop in H. destruct H as (He & Hit).
    destruct (eval_self_contained env e He) as (r & Er).
    destruct (IH Hit) as (r' & Er').
    exists (match r with
            | Some v => match r' with
                        | Some d => Some ((k, v) :: d)
                        | None => None
                        end
            | None => None
            end).
    intros w Hw. rewrite (Er w Hw). destruct r; [|reflexivity].
    rewrite (Er' w Hw). destruct r'; reflexivity.
Qed.

(** A self-contained function returns what its arguments determine and
    leaves the world as it found it. *)
Lemma call_self_contained (vs : list V) :
  self_contained f = true ->
  exists r, forall w, builtins_visible w -> call f w vs = (r, w).
Proof.
  unfold self_contained, call. intro H.
  apply andb_prop in H. destruct H as (H & Hret).
  apply andb_prop in H. destruct H as (Hg & Hbody).
  assert (Hg' : global_names f = []) by (destruct (global_names f); [reflexivity | discriminate Hg]).
  destruct (Nat.eqb _ _).
  - destruct (exec_self_contained (body f) Hg' Hbody (combine (args f) vs))
      as (r & Er).
    destruct r as [env|].
    + destruct (display_self_contained env (returns f) Hret) as (r' & Er').
      exists r'. intros w Hw. rewrite (Er w Hw). exact (Er' w Hw).
    + exists None. intros w Hw. rewrite (Er w Hw). reflexivity.
  - eexists. intros w _. reflexivity.
Qed.

End Purity.

(** On floats the interpreted body returns the dictionary of
    [evaluate_extraction], in every world. *)
Lemma evaluate_extraction_def_correct (w : Ast.world float)
    (a o s st t : float) :
  Ast.builtins_visible w ->
  Ast.call Ast.evaluate_extraction_def w [a; o; s; st; t]
  = (Some (evaluate_extraction a o s st t), w).
Proof.
  intro Hw.
  destruct (call_self_contained Ast.evaluate_extraction_def [a; o; s; st; t]
              eq_refl) as (r & Hr).
  rewrite (Hr w Hw). f_equal.
  set (w0 := {| Ast.globals := []; Ast.generator := fun _ => 0%float;
                Ast.draws := 0 |}).
  assert (H0 : Ast.builtins_visible w0) by (split; reflexivity).
  pose proof (Hr w0 H0) as E.
  assert (E' : Ast.call Ast.evaluate_extraction_def w0 [a; o; s; st; t]
               = (Some (evaluate_extraction a o s st t), w0))
    by reflexivity.
  congruence.
Qed.

(** C9. Two invocations of [evaluate_extraction] with the same five
    arguments return the same mapping (or raise alike), whatever the
    module's globals and the state of the random generator at either
    invocation, as long as the module has not rebound [min] or [max]; and
    an invocation assigns no global and draws no random number.  The
    arguments are numbers of any kind, Python floats or integers. *)
Theorem evaluate_extraction_deterministic
    {V : Type} {number : Ast.Number V} (w w' : Ast.world V)
    (a o s st t : V) :
  Ast.builtins_visible w -> Ast.builtins_visible w' ->
  fst (Ast.call Ast.evaluate_extraction_def w [a; o; s; st; t])
  = fst (Ast.call Ast.evaluate_extraction_def w' [a; o; s; st; t])
  /\ snd (Ast.call Ast.evaluate_extraction_def w [a; o; s; st; t]) = w
  /\ snd (Ast.call Ast.evaluate_extraction_def w' [a; o; s; st; t]) = w'.
Proof.
  intros Hw Hw'.
  destruct (call_self_contained Ast.evaluate_extraction_def [a; o; s; st; t]
              eq_refl) as (r & Hr).
  rewrite (Hr w Hw), (Hr w' Hw'). repeat split.
Qed.

Lemma evaluate_extraction_deterministic_witness :
  let w := {| Ast.globals := [("aqueous_composition"%string, 0.9%float);
                              ("organic_composition"%string, 0.1%float);
                              ("temperature"%string, 4%float);
                              ("i"%string, 7%float)];
              Ast.generator := fun _ => 0.25%float; Ast.draws := 3 |} in
  let w' := {| Ast.globals := []; Ast.generator := fun _ => 0.75%float;
               Ast.draws := 0 |} in
  let vs := [0.5; 0.5; 300; 60; 20]%float in
  Ast.builtins_visible w /\ Ast.builtins_visible w'
  /\ fst (Ast.call Ast.evaluate_extraction_def w vs)
     = fst (Ast.call Ast.evaluate_extraction_def w' vs).
Proof.
  cbv zeta. split; [split; reflexivity|]. split; [split; reflexivity|].
  refine (proj1 (evaluate_extraction_deterministic _ _ _ _ _ _ _ _ _)).
  - split; reflexivity.
  - split; reflexivity.
Defined.

(** C1, as stated, fails: at the scenario's input the recovery is not
    68.0, and the separation does not round to 78.44 (the purity is 90.0,
    as stated). *)
Lemma scenario_counterexample :
  let d := evaluate_extraction 0.5 (1.0 - 0.5) 300 60 20 in
  Py.get "recovery" d <> Some 68.0%float
  /\ (forall v, Py.get "separation" d = Some v ->
                within 78.435 78.445 v = false)
  /\ ~ (Py.get "recovery" d = Some 68.0%float
        /\ Py.get "purity" d = Some 90.0%float
        /\ exists v, Py.get "separation" d = Some v
                     /\ within 78.435 78.445 v = true).
Proof.
  cbv zeta.
  assert (Hr : Py.get "recovery" (evaluate_extraction 0.5 (1.0 - 0.5) 300 60 20)
               <> Some 68.0%float).
  { intro H. vm_compute in H. discriminate H. }
  split; [exact Hr|]. split.
  - intros v Hv. vm_compute in Hv. injection Hv as <-. reflexivity.
  - intros (H & _). exact (Hr H).
Qed.

(** C1, amended. At [aqueous_composition = 0.5], [stirring_speed = 300],
    [stirring_time = 60], [temperature = 20], with the derived
    [organic_composition = 1.0 - 0.5 = 0.5], the function returns
    recovery [72.00000000000001] (72.0 to two decimals), purity exactly
    [90.0], and separation [82.44444444444444] (82.44 to two decimals). *)
Theorem scenario_values :
  let d := evaluate_extraction 0.5 (1.0 - 0.5) 300 60 20 in
  (1.0 - 0.5 = 0.5)%float
  /\ Py.get "recovery" d = Some 72.00000000000001%float
  /\ within 71.995 72.005 72.00000000000001 = true
  /\ Py.get "purity" d = Some 90.0%float
  /\ Py.get "separation" d = Some 82.44444444444444%float
  /\ within 82.435 82.445 82.44444444444444 = true.
Proof.
  cbv zeta. repeat split; vm_compute; reflexivity.
Qed.

(** ** Ranges of the metrics *)

Ltac side := vm_compute; reflexivity.

(** Range of a float expression built from ranged leaves and constants. *)
Ltac range :=
  lazymatch goal with
  | |- in_range _ _ (_ + _)%float =>
      eapply in_range_add; [range | range | side | side]
  | |- in_range _ _ (_ - _)%float =>
      eapply in_range_sub; [range | range | side | side]
  | |- in_range _ _ (_ * _)%float =>
      first [ eapply in_range_mul_l; [side | side | range | side | side]
            | eapply in_range_mul_r; [side | side | range | side | side] ]
  | |- in_range _ _ (_ / _)%float =>
      eapply in_range_div_r; [side | side | range | side | side]
  | |- in_range _ _ _ =>
      first [ eassumption | apply in_range_const; side ]
  end.

Lemma in_bounds_ranges (p : parameterization) :
  in_bounds p = true ->
  in_range 0 1 (p_aqueous_composition p)
  /\ in_range 100 500 (p_stirring_speed p)
  /\ in_range 10 120 (p_stirring_time p)
  /\ in_range 4 40 (p_temperature p).
Proof.
  unfold in_bounds. intro H.
  apply andb_prop in H. destruct H as (H & Ht).
  apply andb_prop in H. destruct H as (H & Hst).
  apply andb_prop in H. destruct H as (Ha & Hs).
  split; [|split; [|split]]; apply in_range_of_within;
    solve [side | assumption].
Qed.

Lemma in_range_finite (l h x : float) : in_range l h x -> finite x.
Proof. intros (_ & _ & H & _). exact H. Qed.

(** A percentage metric: the clamped fraction times 100. *)
Lemma percentage_in_range (l h raw : float) :
  in_range l h raw ->
  in_range (0 * 100) (1.0 * 100) (Py.min (Py.max raw 0) 1.0 * 100).
Proof.
  intro H. apply in_range_finite in H.
  eapply in_range_mul_r; [side | side | | side | side].
  apply clamp_in_range; [assumption | side | side | side].
Qed.

Section Metrics.

Variables a s st t : float.
Hypothesis Ha : in_range 0 1 a.
Hypothesis Hs : in_range 100 500 s.
Hypothesis Hst : in_range 10 120 st.
Hypothesis Ht : in_range 4 40 t.

Lemma organic_range : in_range (1.0 - 1) (1.0 - 0) (1.0 - a).
Proof. range. Qed.

Lemma recovery_raw_range :
  in_range (recovery_raw (1.0 - 1) 100 4) (recovery_raw (1.0 - 0) 500 40)
           (recovery_raw (1.0 - a) s t).
Proof. unfold recovery_raw. range. Qed.

Lemma purity_raw_range :
  in_range (purity_raw 0 4) (purity_raw 1 40) (purity_raw a t).
Proof. unfold purity_raw. range. Qed.

Lemma separation_raw_range :
  in_range (separation_raw 500 4) (separation_raw 100 40) (separation_raw s t).
Proof. unfold separation_raw. range. Qed.

Lemma emulsion_raw_range :
  in_range (emulsion_raw 100 10) (emulsion_raw 500 120) (emulsion_raw s st).
Proof. unfold emulsion_raw. range. Qed.

Lemma recovery_range : in_range (0 * 100) (1.0 * 100) (recovery (1.0 - a) s t).
Proof. exact (percentage_in_range _ _ _ recovery_raw_range). Qed.

Lemma separation_range : in_range (0 * 100) (1.0 * 100) (separation s t).
Proof. exact (percentage_in_range _ _ _ separation_raw_range). Qed.

Lemma emulsion_range : in_range (0 * 100) (1.0 * 100) (emulsion s st).
Proof. exact (percentage_in_range _ _ _ emulsion_raw_range). Qed.

Lemma total_time_raw_range :
  in_range (10 + 50 + 1000 * (1 - 1.0 * 100 / 100) + 500 * (0 * 100 / 100))
           (120 + 50 + 1000 * (1 - 0 * 100 / 100) + 500 * (1.0 * 100 / 100))
           (total_time_raw s st t).
Proof.
  pose proof separation_range. pose proof emulsion_range.
  unfold total_time_raw. range.
Qed.

End Metrics.

(** C3. For every parameterization within the declared bounds, with
    [organic_composition = 1.0 - aqueous_composition], the result holds a
    value for each of the five declared objectives, and each value lies in
    its clamped range: [0, 100] for recovery, purity, separation and
    emulsion, [0, 2000] for the total time.  The function is total: the
    clamp saturates, it has no error path. *)
Theorem objectives_within_range (p : parameterization) :
  in_bounds p = true ->
  let d := evaluate_extraction (p_aqueous_composition p)
             (1.0 - p_aqueous_composition p)%float
             (p_stirring_speed p) (p_stirring_time p) (p_temperature p) in
  Py.keys d = map fst objectives
  /\ forall name, In name (map fst objectives) ->
       exists v, Py.get name d = Some v
                 /\ within (fst (objective_range name))
                           (snd (objective_range name)) v = true.
Proof.
  intro Hb. destruct (in_bounds_ranges p Hb) as (Ha & Hs & Hst & Ht).
  cbv zeta. split; [reflexivity|].
  intros name Hin. simpl in Hin.
  destruct Hin as [<- | [<- | [<- | [<- | [<- | []]]]]];
    eexists; (split; [reflexivity|]); cbn [objective_range String.eqb fst snd
      Ascii.eqb Bool.eqb].
  - eapply within_of_in_range;
      [exact (recovery_range _ _ _ Ha Hs Ht) | side..].
  - eapply within_of_in_range;
      [apply clamp_in_range;
       [exact (in_range_finite _ _ _ (purity_raw_range _ _ Ha Ht)) | side..]
      | side..].
  - eapply within_of_in_range;
      [exact (separation_range _ _ Hs Ht) | side..].
  - eapply within_of_in_range;
      [exact (emulsion_range _ _ Hs Hst) | side..].
  - eapply within_of_in_range;
      [apply clamp_in_range;
       [exact (in_range_finite _ _ _ (total_time_raw_range _ _ _ Hs Hst Ht))
       | side..]
      | side..].
Qed.

Lemma objectives_within_range_witness :
  let p := {| p_aqueous_composition := 0.5; p_stirring_speed := 300;
              p_stirring_time := 60; p_temperature := 20 |} in
  in_bounds p = true
  /\ exists v, Py.get "recovery"
                 (evaluate_extraction 0.5 (1.0 - 0.5) 300 60 20) = Some v
               /\ within 0 100 v = true.
Proof.
  cbv zeta. split; [reflexivity|].
  exact (proj2 (objectives_within_range
                  {| p_aqueous_composition := 0.5; p_stirring_speed := 300;
                     p_stirring_time := 60; p_temperature := 20 |} eq_refl)
               "recovery"%string (or_introl eq_refl)).
Defined.

(** C8. With [stirring_speed] at its upper bound 500, the recovery that
    the evaluation function returns never exceeds 100 (and is never
    negative), whatever the other parameters within their bounds.  The
    clamp does saturate there: at [aqueous_composition = 0] and
    [temperature = 40] the raw value exceeds 1 and the recovery is exactly
    100. *)
Theorem recovery_saturates_at_max_speed (a st t : float) :
  within 0 1 a = true -> within 10 120 st = true -> within 4 40 t = true ->
  (exists v, Py.get "recovery" (evaluate_extraction a (1.0 - a) 500 st t)
             = Some v
             /\ (v <=? 100)%float = true /\ (0 <=? v)%float = true)
  /\ (1.0 <? recovery_raw (1.0 - 0) 500 40)%float = true
  /\ Py.get "recovery" (evaluate_extraction 0 (1.0 - 0) 500 st 40)
     = Some 100%float.
Proof.
  intros Ha _ Ht.
  apply in_range_of_within in Ha; [|side..].
  apply in_range_of_within in Ht; [|side..].
  assert (Hs : in_range 100 500 500) by (apply in_range_of_within; side).
  assert (Hw : within 0 100 (recovery (1.0 - a) 500 t) = true).
  { eapply within_of_in_range;
      [exact (recovery_range _ _ _ Ha Hs Ht) | side..]. }
  split; [|split; [side|]].
  - exists (recovery (1.0 - a) 500 t). split; [reflexivity|].
    unfold within in Hw. apply andb_prop in Hw. tauto.
  - side.
Qed.

Lemma recovery_saturates_at_max_speed_witness :
  within 0 1 0.25 = true /\ within 10 120 60 = true /\ within 4 40 37 = true
  /\ exists v, Py.get "recovery" (evaluate_extraction 0.25 (1.0 - 0.25) 500 60 37)
               = Some v
               /\ (v <=? 100)%float = true /\ (0 <=? v)%float = true.
Proof.
  split; [reflexivity|]. split; [reflexivity|]. split; [reflexivity|].
  exact (proj1 (recovery_saturates_at_max_speed 0.25 60 37
                  eq_refl eq_refl eq_refl)).
Defined.

(** C10. For every parameterization within the declared bounds the purity
    and total-time clamps are inactive.  The raw purity lies between its
    values at the corners [(0, 4)] and [(1, 40)], hence within
    [82.77, 97.78], strictly inside [0, 100]; the raw total time lies
    within [60, 1670], inside [0, 2000]; so the function returns both raw
    values unchanged. *)
Theorem purity_and_time_clamps_inactive (p : parameterization) :
  in_bounds p = true ->
  let a := p_aqueous_composition p in
  let s := p_stirring_speed p in
  let st := p_stirring_time p in
  let t := p_temperature p in
  let d := evaluate_extraction a (1.0 - a) s st t in
  within (purity_raw 0 4) (purity_raw 1 40) (purity_raw a t) = true
  /\ within 82.77 97.78 (purity_raw a t) = true
  /\ Py.get "purity" d = Some (purity_raw a t)
  /\ within 60 1670 (total_time_raw s st t) = true
  /\ Py.get "total_time" d = Some (total_time_raw s st t).
Proof.
  intro Hb. destruct (in_bounds_ranges p Hb) as (Ha & Hs & Hst & Ht).
  cbv zeta.
  pose proof (purity_raw_range _ _ Ha Ht) as HP.
  pose proof (total_time_raw_range _ _ _ Hs Hst Ht) as HT.
  split; [eapply within_of_in_range; [exact HP | side..]|].
  split; [eapply within_of_in_range; [exact HP | side..]|].
  split.
  { cbn [evaluate_extraction Py.get String.eqb Ascii.eqb Bool.eqb].
    f_equal. unfold purity. eapply clamp_id; [exact HP | side..]. }
  split; [eapply within_of_in_range; [exact HT | side..]|].
  cbn [evaluate_extraction Py.get String.eqb Ascii.eqb Bool.eqb].
  f_equal. unfold total_time. eapply clamp_id; [exact HT | side..].
Qed.

Lemma purity_and_time_clamps_inactive_witness :
  let p := {| p_aqueous_composition := 0.5; p_stirring_speed := 300;
              p_stirring_time := 60; p_temperature := 20 |} in
  let d := evaluate_extraction 0.5 (1.0 - 0.5) 300 60 20 in
  in_bounds p = true
  /\ Py.get "purity" d = Some (purity_raw 0.5 20)
  /\ Py.get "total_time" d = Some (total_time_raw 300 60 20).
Proof.
  cbv zeta. split; [reflexivity|].
  pose proof (purity_and_time_clamps_inactive
                {| p_aqueous_composition := 0.5; p_stirring_speed := 300;
                   p_stirring_time := 60; p_temperature := 20 |} eq_refl) as H.
  cbv zeta in H. cbn [p_aqueous_composition p_stirring_speed p_stirring_time
                      p_temperature] in H.
  tauto.
Defined.

(** ** The derived parameter *)

Section Composition.

Local Open Scope R_scope.





End Composition.

(** ** Properties of the trial loop *)

Lemma requested_app (l1 l2 : list event) :
  requested (l1 ++ l2) = requested l1 ++ requested l2.
Proof.
  induction l1 as [|e l1 IH]; simpl; [reflexivity|].
  destruct e; simpl; rewrite IH; reflexivity.
Qed.

Lemma reported_app (l1 l2 : list event) :
  reported (l1 ++ l2) = reported l1 ++ reported l2.
Proof.
  induction l1 as [|e l1 IH]; simpl; [reflexivity|].
  destruct e; simpl; rewrite IH; reflexivity.
Qed.

Lemma find_trial_fresh (c0 : AxClient) (t : trial) (n : nat) :
  map t_index c0 = seq 0 n -> t_index t = n ->
  find_trial n (c0 ++ [t]) = Some t.
Proof.
  intros Hidx Ht.
  assert (Hnot : forall u, In u c0 -> Nat.eqb (t_index u) n = false).
  { intros u Hu. apply Nat.eqb_neq. intro E.
    assert (Hin : In n (map t_index c0)) by (rewrite <- E; now apply in_map).
    rewrite Hidx in Hin. apply in_seq in Hin. lia. }
  clear Hidx. induction c0 as [|u c0 IH]; simpl.
  - rewrite Ht, Nat.eqb_refl. reflexivity.
  - rewrite Hnot by now left. apply IH. intros v Hv. apply Hnot. now right.
Qed.

Lemma update_trial_fresh (c0 : AxClient) (t : trial) (n : nat) f :
  map t_index c0 = seq 0 n -> t_index t = n ->
  update_trial n f (c0 ++ [t]) = c0 ++ [f t].
Proof.
  intros Hidx Ht.
  assert (Hnot : forall u, In u c0 -> Nat.eqb (t_index u) n = false).
  { intros u Hu. apply Nat.eqb_neq. intro E.
    assert (Hin : In n (map t_index c0)) by (rewrite <- E; now apply in_map).
    rewrite Hidx in Hin. apply in_seq in Hin. lia. }
  clear Hidx. induction c0 as [|u c0 IH]; simpl.
  - rewrite Ht, Nat.eqb_refl. reflexivity.
  - rewrite Hnot by now left. f_equal. apply IH. intros v Hv. apply Hnot. now right.
Qed.

(** Reporting the trial that was just requested always succeeds. *)
Lemma complete_trial_fresh (c0 : AxClient) (p : parameterization) (n : nat) raw :
  map t_index c0 = seq 0 n ->
  complete_trial
    (c0 ++ [ {| t_index := n; t_parameters := p;
                t_status := Running; t_raw_data := None |} ]) n raw
  = Some (c0 ++ [ {| t_index := n; t_parameters := p;
                     t_status := Completed; t_raw_data := Some raw |} ]).
Proof.
  intro Hidx. unfold complete_trial.
  rewrite find_trial_fresh by (assumption || reflexivity). simpl.
  rewrite update_trial_fresh by (assumption || reflexivity). reflexivity.
Qed.

Lemma filter_finished_completed (a : AxClient) :
  forallb is_completed a = true -> filter finished a = a.
Proof.
  induction a as [|t a IH]; simpl; [reflexivity|].
  intro H. apply andb_prop in H. destruct H as (Ht & Ha).
  assert (Hfin : finished t = true).
  { unfold finished. unfold is_completed in Ht.
    destruct (t_status t); congruence. }
  rewrite Hfin, IH by assumption. reflexivity.
Qed.

Section DriverProofs.

Variable suggest : AxClient -> parameterization.

Lemma inv_initial (N : nat) : inv N initial.
Proof.
  unfold inv, settled; simpl. repeat split; auto; lia.
Qed.

Lemma step_inv (N : nat) (c c' : config) :
  inv N c -> step suggest N c = Some c' -> inv N c'.
Proof.
  intros (Hf & Hle & Hpc) Hstep. unfold step in Hstep.
  destruct (pc c) as [| |p idx|] eqn:Epc.
  - (* idle *)
    injection Hstep as <-. destruct Hpc as (Hi & Hs).
    unfold inv, settled in *; cbn [pc i ax_client log failure stdout]. repeat split; try tauto; lia.
  - (* awaiting_candidate *)
    destruct (Nat.ltb (i c) N) eqn:Elt.
    + apply Nat.ltb_lt in Elt. unfold get_next_trial in Hstep.
      injection Hstep as <-. destruct Hpc as (Hidx & Hall & Hreq & Hrep).
      unfold inv; cbn [pc i ax_client log failure stdout]. split; [assumption|]. split; [assumption|].
      assert (Hlen : List.length (ax_client c) = i c).
      { rewrite <- (length_map t_index), Hidx. apply length_seq. }
      rewrite Hlen. split; [reflexivity|]. split; [assumption|].
      exists (ax_client c). repeat split; try assumption.
      * rewrite requested_app, Hreq, seq_S. reflexivity.
      * rewrite reported_app, Hrep. cbn [requested reported]. apply app_nil_r.
    + apply Nat.ltb_ge in Elt. injection Hstep as <-.
      unfold inv, settled in *; cbn [pc i ax_client log failure stdout].
      assert (i c = N) by lia. subst N. tauto.
  - (* evaluating *)
    destruct Hpc as (-> & Hlt & c0 & Hax & Hidx & Hall & Hreq & Hrep).
    rewrite Hax, (complete_trial_fresh c0 p (i c) _ Hidx) in Hstep.
    injection Hstep as <-. unfold inv, settled; cbn [pc i ax_client log failure stdout].
    split; [assumption|]. split; [lia|]. repeat split.
    + rewrite map_app, Hidx, seq_S. reflexivity.
    + rewrite forallb_app, Hall. reflexivity.
    + rewrite requested_app, Hreq. cbn [requested reported]. apply app_nil_r.
    + rewrite reported_app, Hrep, seq_S. reflexivity.
  - discriminate.
Qed.

Lemma run_inv (N fuel : nat) (c : config) :
  inv N c -> inv N (run suggest N fuel c).
Proof.
  revert c. induction fuel as [|fuel IH]; intros c Hc; simpl; [assumption|].
  destruct (step suggest N c) as [c'|] eqn:E; [|assumption].
  apply IH. eapply step_inv; eassumption.
Qed.

Lemma run_snoc (N fuel : nat) (c : config) :
  run suggest N (S fuel) c =
  match step suggest N (run suggest N fuel c) with
  | Some c' => c'
  | None => run suggest N fuel c
  end.
Proof.
  revert c. induction fuel as [|fuel IH]; intro c.
  - simpl. destruct (step suggest N c); reflexivity.
  - change (run suggest N (S (S fuel)) c) with
      (match step suggest N c with
       | Some c' => run suggest N (S fuel) c'
       | None => c
       end).
    simpl (run suggest N (S fuel) c).
    destruct (step suggest N c) as [c'|] eqn:E.
    + apply IH.
    + rewrite E. reflexivity.
Qed.

Lemma run_plus (N a b : nat) (c : config) :
  run suggest N (a + b) c = run suggest N b (run suggest N a c).
Proof.
  revert c. induction a as [|a IH]; intro c; [reflexivity|].
  simpl. destruct (step suggest N c) as [c'|] eqn:E; [apply IH|].
  clear IH. induction b as [|b IHb]; simpl; [reflexivity|].
  rewrite E. reflexivity.
Qed.

Lemma run_stuck (N fuel : nat) (c : config) :
  step suggest N c = None -> run suggest N fuel c = c.
Proof.
  intro H. destruct fuel; simpl; [reflexivity | rewrite H; reflexivity].
Qed.

(** From the loop head, one step requests trial [k]. *)
Lemma run_eval_of_head (N k : nat) :
  k < N ->
  pc (run suggest N (1 + 2 * k) initial) = awaiting_candidate ->
  i (run suggest N (1 + 2 * k) initial) = k ->
  let c1 := run suggest N (2 + 2 * k) initial in
  (exists p, pc c1 = evaluating p k) /\ i c1 = k.
Proof.
  intros Hlt Hpc Hi.
  pose proof (run_inv N (1 + 2 * k) initial (inv_initial N)) as Hinv.
  change (2 + 2 * k) with (S (1 + 2 * k)). cbv zeta. rewrite run_snoc.
  set (c := run suggest N (1 + 2 * k) initial) in *.
  unfold step. rewrite Hpc.
  assert (Hltb : Nat.ltb (i c) N = true) by (apply Nat.ltb_lt; lia).
  rewrite Hltb. unfold get_next_trial. cbn [pc i].
  destruct Hinv as (_ & _ & Hs). rewrite Hpc in Hs.
  destruct Hs as (Hidx & _).
  assert (Hlen : List.length (ax_client c) = k).
  { rewrite <- (length_map t_index), Hidx, length_seq. exact Hi. }
  rewrite Hlen. split; [eexists; reflexivity | exact Hi].
Qed.

(** After [1 + 2k] steps the loop is at its head with [i = k]. *)
Lemma run_head (N k : nat) :
  k <= N ->
  let c := run suggest N (1 + 2 * k) initial in
  pc c = awaiting_candidate /\ i c = k.
Proof.
  induction k as [|k IH]; intro Hk.
  - simpl. split; reflexivity.
  - destruct IH as (Hpc & Hi); [lia|].
    destruct (run_eval_of_head N k Hk Hpc Hi) as ((p & Hpc1) & Hi1).
    pose proof (run_inv N (2 + 2 * k) initial (inv_initial N)) as Hinv1.
    replace (1 + 2 * S k) with (S (2 + 2 * k)) by lia.
    cbv zeta. rewrite run_snoc.
    set (c1 := run suggest N (2 + 2 * k) initial) in *.
    unfold step. rewrite Hpc1.
    destruct Hinv1 as (_ & _ & Hs). rewrite Hpc1 in Hs.
    destruct Hs as (_ & _ & c0 & Hax & Hidx & _).
    rewrite Hax. rewrite Hi1 in Hidx.
    rewrite (complete_trial_fresh c0 p k _ Hidx). cbn [pc i].
    split; [reflexivity | lia].
Qed.

(** The run reaches [done] after [2N + 2] steps. *)
Lemma run_done (N : nat) :
  let c := run suggest N (2 * N + 2) initial in
  pc c = done /\ inv N c.
Proof.
  destruct (run_head N N (le_n N)) as (Hpc & Hi).
  replace (2 * N + 2) with (S (1 + 2 * N)) by lia.
  split; [|apply run_inv, inv_initial].
  rewrite run_snoc. unfold step. rewrite Hpc, Hi, Nat.ltb_irrefl. reflexivity.
Qed.

(** ... and not before. *)
Lemma run_not_done_before (N fuel : nat) :
  fuel < 2 * N + 2 -> pc (run suggest N fuel initial) <> done.
Proof.
  intro Hlt. destruct fuel as [|fuel]; [discriminate|].
  destruct (Nat.Even_or_Odd fuel) as [[k ->]|[k ->]].
  - destruct (run_head N k) as (Hpc & _); [lia|].
    change (S (2 * k)) with (1 + 2 * k). rewrite Hpc. discriminate.
  - destruct (run_head N k) as (Hpc & Hi); [lia|].
    destruct (run_eval_of_head N k) as ((p & Hpc1) & _); [lia|assumption..|].
    replace (S (2 * k + 1)) with (2 + 2 * k) by lia.
    rewrite Hpc1. discriminate.
Qed.

Lemma sequenced_snoc (l : list event) (e : event) :
  sequenced l ->
  (exists k, reported (l ++ [e]) = seq 0 k
             /\ (requested (l ++ [e]) = seq 0 k
                 \/ requested (l ++ [e]) = seq 0 (S k))) ->
  sequenced (l ++ [e]).
Proof.
  intros Hl He l1 l2 Heq.
  destruct l2 as [|e' l2'] using rev_ind.
  - rewrite app_nil_r in Heq. subst l1. exact He.
  - clear IHl2'. rewrite app_assoc in Heq.
    apply app_inj_tail in Heq. destruct Heq as (Heq & _).
    exact (Hl l1 l2' Heq).
Qed.

Lemma step_sequenced (N : nat) (c c' : config) :
  inv N c -> sequenced (log c) -> step suggest N c = Some c' ->
  sequenced (log c').
Proof.
  intros Hinv Hseq Hstep.
  pose proof (step_inv N c c' Hinv Hstep) as Hinv'.
  destruct Hinv as (_ & _ & Hpc). unfold step in Hstep.
  destruct (pc c) as [| |p idx|] eqn:Epc.
  - injection Hstep as <-. exact Hseq.
  - destruct (Nat.ltb (i c) N).
    + unfold get_next_trial in Hstep. injection Hstep as <-.
      destruct Hinv' as (_ & _ & Hs). cbn [pc i ax_client log] in *.
      destruct Hs as (_ & _ & _ & _ & _ & _ & Hreq & Hrep).
      apply sequenced_snoc; [assumption|]. exists (i c). tauto.
    + injection Hstep as <-. exact Hseq.
  - destruct Hpc as (-> & Hlt & c0 & Hax & Hidx & Hall & Hreq & Hrep).
    rewrite Hax, (complete_trial_fresh c0 p (i c) _ Hidx) in Hstep.
    injection Hstep as <-. cbn [log].
    match goal with |- sequenced (?l ++ [?a; ?b]) =>
      change (l ++ [a; b]) with (l ++ [a] ++ [b]); rewrite app_assoc end.
    apply sequenced_snoc; [apply sequenced_snoc; [assumption|]|].
    + exists (i c). rewrite requested_app, reported_app, Hreq, Hrep.
      cbn [requested reported]. rewrite !app_nil_r. tauto.
    + exists (S (i c)).
      rewrite !requested_app, !reported_app, Hreq, Hrep.
      cbn [requested reported]. rewrite !app_nil_r, <- seq_S. tauto.
  - discriminate.
Qed.

Lemma run_sequenced (N fuel : nat) :
  sequenced (log (run suggest N fuel initial)).
Proof.
  induction fuel as [|fuel IH].
  - intros l1 l2 Heq. simpl in Heq. symmetry in Heq.
    apply app_eq_nil in Heq. destruct Heq as (-> & _).
    exists 0. simpl. tauto.
  - rewrite run_snoc.
    destruct (step suggest N (run suggest N fuel initial)) as [c'|] eqn:E;
      [|assumption].
    eapply step_sequenced; [apply run_inv, inv_initial | exact IH | exact E].
Qed.

End DriverProofs.

(** ** Claims about the trial loop *)

(** C5. For every optimiser and every budget [N], the run ends in [done]
    and the trial indices it produced, in the order they were requested,
    are exactly [0, 1, ..., N-1]: the same list is what was reported and
    what the experiment holds, it has no repeats, it contains [n] exactly
    when [n < N], and iteration [k] of the loop works on trial [k]. *)
Theorem trial_indices_exact (suggest : AxClient -> parameterization) (N : nat) :
  let c := run suggest N (2 * N + 2) initial in
  pc c = done
  /\ requested (log c) = seq 0 N
  /\ reported (log c) = seq 0 N
  /\ map t_index (ax_client c) = seq 0 N
  /\ NoDup (requested (log c))
  /\ (forall n, In n (requested (log c)) <-> n < N)
  /\ (forall k, k < N ->
        let ck := run suggest N (2 + 2 * k) initial in
        i ck = k /\ exists p, pc ck = evaluating p k).
Proof.
  destruct (run_done suggest N) as (Hpc & Hinv). cbv zeta.
  remember (run suggest N (2 * N + 2) initial) as c eqn:Ec.
  destruct Hinv as (_ & _ & Hs). rewrite Hpc in Hs.
  destruct Hs as (_ & Hidx & _ & Hreq & Hrep).
  split; [exact Hpc|]. split; [exact Hreq|]. split; [exact Hrep|].
  split; [exact Hidx|]. split; [|split].
  - rewrite Hreq. apply seq_NoDup.
  - intro n. rewrite Hreq, in_seq. lia.
  - intros k Hk. destruct (run_head suggest N k) as (Hpck & Hik); [lia|].
    destruct (run_eval_of_head suggest N k Hk Hpck Hik) as (Hp & Hi).
    split; assumption.
Qed.

(** C6. At every point of every run, no prefix of the calls made so far
    has more than one trial in flight, and whenever the candidate for trial
    [n+1] is requested, trial [n] has already been reported and nothing is
    in flight. *)
Theorem trials_sequential (suggest : AxClient -> parameterization)
    (N fuel : nat) :
  let c := run suggest N fuel initial in
  (forall l1 l2, log c = l1 ++ l2 -> in_flight l1 <= 1)
  /\ (forall l1 l2 n p,
        log c = l1 ++ Call_get_next_trial (S n) p :: l2 ->
        In n (reported l1) /\ in_flight l1 = 0).
Proof.
  pose proof (run_sequenced suggest N fuel) as Hseq. cbv zeta.
  set (c := run suggest N fuel initial) in *. split.
  - intros l1 l2 Heq. destruct (Hseq l1 l2 Heq) as (k & Hrep & Hreq).
    unfold in_flight. rewrite Hrep.
    destruct Hreq as [-> | ->]; rewrite !length_seq; lia.
  - intros l1 l2 n p Heq.
    destruct (Hseq l1 _ Heq) as (k & Hrep & Hreq).
    assert (Heq' : log c = (l1 ++ [Call_get_next_trial (S n) p]) ++ l2)
      by (rewrite <- app_assoc; exact Heq).
    destruct (Hseq _ _ Heq') as (k' & Hrep' & Hreq').
    rewrite reported_app in Hrep'. cbn [reported] in Hrep'.
    rewrite app_nil_r, Hrep in Hrep'.
    assert (k' = k).
    { apply (f_equal (@List.length nat)) in Hrep'.
      rewrite !length_seq in Hrep'. lia. }
    subst k'. rewrite requested_app in Hreq'. cbn [requested] in Hreq'.
    assert (Hlen : List.length (requested l1) = S n /\ S n < S k).
    { destruct Hreq' as [H | H].
      - assert (Hl := f_equal (@List.length nat) H).
        rewrite length_app, length_seq in Hl. cbn [List.length] in Hl.
        destruct k as [|k]; [lia|]. rewrite seq_S in H.
        apply app_inj_tail in H. destruct H as (H1 & H2).
        apply (f_equal (@List.length nat)) in H1. rewrite length_seq in H1.
        simpl in H2. lia.
      - rewrite seq_S in H. apply app_inj_tail in H. destruct H as (H1 & H2).
        apply (f_equal (@List.length nat)) in H1. rewrite length_seq in H1.
        simpl in H2. lia. }
    destruct Hlen as (Hlen & Hk). split.
    + rewrite Hrep. apply in_seq. lia.
    + unfold in_flight. rewrite Hlen, Hrep, length_seq. lia.
Qed.

(** C7. With the script's budget of 30 trials, every run reaches the
    terminal state [done] after 62 steps and not earlier, without a
    failure; the experiment then holds exactly 30 trials, all of them
    finished, and further steps change nothing. *)
Theorem run_30_terminates (suggest : AxClient -> parameterization) :
  let c := run suggest num_trials 62 initial in
  pc c = done
  /\ step suggest num_trials c = None
  /\ failure c = None
  /\ i c = 30
  /\ List.length (ax_client c) = 30
  /\ List.length (filter finished (ax_client c)) = 30
  /\ (forall fuel, fuel < 62 -> pc (run suggest num_trials fuel initial) <> done)
  /\ (forall fuel, run suggest num_trials (62 + fuel) initial = c).
Proof.
  destruct (run_done suggest num_trials) as (Hpc & Hinv).
  change (2 * num_trials + 2) with 62 in *. cbv zeta.
  remember (run suggest num_trials 62 initial) as c eqn:Ec.
  assert (Hstep : step suggest num_trials c = None)
    by (unfold step; rewrite Hpc; reflexivity).
  destruct Hinv as (Hf & _ & Hs). rewrite Hpc in Hs.
  destruct Hs as (Hi & Hidx & Hall & _).
  assert (Hlen : List.length (ax_client c) = num_trials).
  { rewrite <- (length_map t_index), Hidx. apply length_seq. }
  split; [exact Hpc|]. split; [exact Hstep|]. split; [exact Hf|].
  split; [exact Hi|]. split; [exact Hlen|]. split; [|split].
  - rewrite filter_finished_completed by exact Hall. exact Hlen.
  - intros fuel Hlt. apply run_not_done_before. exact Hlt.
  - intro fuel. rewrite run_plus. subst c. apply run_stuck. exact Hstep.
Qed.

(** C4, as stated, fails: a candidate whose evaluation holds a non-finite
    value (here a NaN purity) is reported like any other; the trial is
    recorded completed, nothing is raised and the loop goes on. *)
Lemma unchecked_result_counterexample :
  let p := {| p_aqueous_composition := nan; p_stirring_speed := 300;
              p_stirring_time := 60; p_temperature := 20 |} in
  let c := run (fun _ => p) 1 3 initial in
  exists raw v,
    ax_client c = [ {| t_index := 0; t_parameters := p;
                       t_status := Completed; t_raw_data := Some raw |} ]
    /\ Py.get "purity" raw = Some v
    /\ Py.isfinite v = false
    /\ pc c = awaiting_candidate
    /\ failure c = None.
Proof.
  cbv zeta. eexists. eexists.
  split; [vm_compute; reflexivity|].
  split; [vm_compute; reflexivity|].
  repeat split; vm_compute; reflexivity.
Qed.

(** C4, amended. The loop does not inspect the evaluation result.  The
    mapping returned by [evaluate_extraction] always has the five declared
    objective keys, and it is handed to [complete_trial] as it is: when the
    optimiser accepts the report the loop returns to its head with the
    optimiser's new state, and only a report the optimiser rejects ends the
    run, at [done], with that trial as the failure and no retry. *)
Theorem driver_reports_unchecked (suggest : AxClient -> parameterization)
    (N : nat) (c : config) (p : parameterization) (idx : nat) :
  pc c = evaluating p idx ->
  let results :=
    evaluate_extraction (p_aqueous_composition p)
      (1.0 - p_aqueous_composition p)%float
      (p_stirring_speed p) (p_stirring_time p) (p_temperature p) in
  Py.keys results = map fst objectives
  /\ exists c', step suggest N c = Some c'
     /\ match complete_trial (ax_client c) idx results with
        | Some ax' =>
            pc c' = awaiting_candidate /\ ax_client c' = ax'
            /\ i c' = S (i c) /\ failure c' = failure c
        | None =>
            pc c' = done /\ ax_client c' = ax_client c
            /\ i c' = i c /\ failure c' = Some idx
        end.
Proof.
  intro Hpc. cbv zeta. split; [reflexivity|].
  unfold step. rewrite Hpc.
  destruct (complete_trial _ _ _) as [ax'|];
    eexists; (split; [reflexivity|]); cbn [pc i ax_client failure]; tauto.
Qed.

Lemma driver_reports_unchecked_witness :
  let p := {| p_aqueous_composition := 0.5; p_stirring_speed := 300;
              p_stirring_time := 60; p_temperature := 20 |} in
  let c := run (fun _ => p) 1 2 initial in
  pc c = evaluating p 0
  /\ exists c', step (fun _ => p) 1 c = Some c'
       /\ pc c' = awaiting_candidate /\ failure c' = None.
Proof.
  cbv zeta.
  refine (let H := driver_reports_unchecked
                     (fun _ => {| p_aqueous_composition := 0.5;
                                  p_stirring_speed := 300;
                                  p_stirring_time := 60;
                                  p_temperature := 20 |}) 1
                     (run (fun _ => {| p_aqueous_composition := 0.5;
                                       p_stirring_speed := 300;
                                       p_stirring_time := 60;
                                       p_temperature := 20 |}) 1 2 initial)
                     _ 0 eq_refl in _).
  split; [reflexivity|].
  destruct H as (_ & c' & Hstep & Hc'). exists c'. split; [exact Hstep|].
  vm_compute in Hc'. tauto.
Defined.




(** * Further properties of the trial loop *)

Section ReplayProofs.

Variable suggest : AxClient -> parameterization.

Lemma replay_indices (n : nat) : map t_index (replay suggest n) = seq 0 n.
Proof.
  induction n as [|n IH]; [reflexivity|].
  cbn [replay]. rewrite map_app, IH, seq_S. reflexivity.
Qed.

Lemma replay_length (n : nat) : List.length (replay suggest n) = n.
Proof.
  rewrite <- (length_map t_index), replay_indices. apply length_seq.
Qed.

Lemma replay_completed (n : nat) :
  forallb is_completed (replay suggest n) = true.
Proof.
  induction n as [|n IH]; [reflexivity|].
  cbn [replay]. rewrite forallb_app, IH. reflexivity.
Qed.

Lemma replay_firstn (n k : nat) :
  k <= n -> firstn k (replay suggest n) = replay suggest k.
Proof.
  intro Hk. induction n as [|n IH].
  - assert (k = 0) by lia. subst k. reflexivity.
  - destruct (Nat.eq_dec k (S n)) as [-> | Hne].
    + rewrite <- (replay_length (S n)) at 1. apply firstn_all.
    + cbn [replay]. rewrite firstn_app, replay_length.
      replace (k - n) with 0 by lia. cbn [firstn]. rewrite app_nil_r.
      apply IH. lia.
Qed.

Lemma progress_S (n : nat) :
  progress (S n) =
  if Nat.eqb ((n + 1) mod 5) 0 then progress n ++ [n + 1] else progress n.
Proof.
  unfold progress. rewrite seq_S, filter_app. cbn [filter].
  replace (1 + n) with (n + 1) by lia.
  destruct (Nat.eqb ((n + 1) mod 5) 0); [reflexivity | apply app_nil_r].
Qed.

(** One iteration, from the loop head back to the loop head. *)
Lemma iteration (N k : nat) (c : config) :
  pc c = awaiting_candidate -> i c = k -> k < N ->
  ax_client c = replay suggest k ->
  run suggest N 2 c =
  {| pc := awaiting_candidate; i := S k;
     ax_client := replay suggest (S k);
     log := log c ++ [Call_get_next_trial k (suggest (replay suggest k))]
            ++ tl (trial_calls
                     {| t_index := k;
                        t_parameters := suggest (replay suggest k);
                        t_status := Completed;
                        t_raw_data :=
                          Some (results_of (suggest (replay suggest k))) |});
     stdout := if Nat.eqb ((k + 1) mod 5) 0
               then stdout c ++ [k + 1] else stdout c;
     failure := failure c |}.
Proof.
  intros Hpc Hi Hk Hax.
  assert (Hlt : Nat.ltb (i c) N = true) by (apply Nat.ltb_lt; lia).
  cbn [run]. unfold step at 1. rewrite Hpc, Hlt. unfold get_next_trial.
  rewrite Hax, replay_length.
  unfold step. cbn [pc ax_client i log stdout failure].
  rewrite (complete_trial_fresh _ _ _ _ (replay_indices k)).
  rewrite Hi, <- app_assoc. reflexivity.
Qed.

Lemma run_replay (N k : nat) :
  k <= N ->
  let c := run suggest N (1 + 2 * k) initial in
  ax_client c = replay suggest k
  /\ log c = flat_map trial_calls (replay suggest k)
  /\ stdout c = progress k
  /\ failure c = None.
Proof.
  induction k as [|k IH]; intro Hk; cbv zeta.
  - repeat split.
  - destruct IH as (Hax & Hlog & Hout & Hf); [lia|].
    destruct (run_head suggest N k) as (Hpc & Hi); [lia|].
    replace (1 + 2 * S k) with ((1 + 2 * k) + 2) by lia.
    rewrite run_plus.
    rewrite (iteration N k _ Hpc Hi Hk Hax).
    cbn [ax_client log stdout failure].
    split; [reflexivity|]. split; [|split; [|exact Hf]].
    + rewrite Hlog. cbn [replay]. rewrite flat_map_app. cbn [flat_map].
      rewrite app_nil_r. reflexivity.
    + rewrite Hout, progress_S. reflexivity.
Qed.

Lemma run_replay_done (N : nat) :
  let c := run suggest N (2 * N + 2) initial in
  ax_client c = replay suggest N
  /\ log c = flat_map trial_calls (replay suggest N)
  /\ stdout c = progress N
  /\ failure c = None.
Proof.
  destruct (run_replay N N (le_n N)) as (Hax & Hlog & Hout & Hf).
  destruct (run_head suggest N N (le_n N)) as (Hpc & Hi).
  cbv zeta. replace (2 * N + 2) with (S (1 + 2 * N)) by lia.
  rewrite run_snoc. unfold step. rewrite Hpc, Hi, Nat.ltb_irrefl.
  cbn [ax_client log stdout failure]. tauto.
Qed.

End ReplayProofs.

Lemma replay_nth (suggest : AxClient -> parameterization) (n k : nat) :
  k < n ->
  nth_error (replay suggest n) k =
  Some {| t_index := k;
          t_parameters := suggest (replay suggest k);
          t_status := Completed;
          t_raw_data := Some (results_of (suggest (replay suggest k))) |}.
Proof.
  intro Hk. induction n as [|n IH]; [lia|].
  cbn [replay]. destruct (Nat.eq_dec k n) as [-> | Hne].
  - rewrite nth_error_app2 by (rewrite replay_length; lia).
    rewrite replay_length, Nat.sub_diag. reflexivity.
  - rewrite nth_error_app1 by (rewrite replay_length; lia).
    apply IH. lia.
Qed.

(** X1. When the run is over, trial [k] of the experiment is completed, its
    candidate is the one the optimiser suggested on exactly the [k] trials
    before it, and its recorded data is the evaluation of that candidate
    with the derived organic fraction. *)
Theorem experiment_closed_form (suggest : AxClient -> parameterization)
    (N : nat) :
  let c := run suggest N (2 * N + 2) initial in
  ax_client c = replay suggest N
  /\ forall k, k < N ->
       nth_error (ax_client c) k =
       Some {| t_index := k;
               t_parameters := suggest (firstn k (ax_client c));
               t_status := Completed;
               t_raw_data :=
                 Some (results_of (suggest (firstn k (ax_client c)))) |}.
Proof.
  destruct (run_replay_done suggest N) as (Hax & _). cbv zeta.
  split; [exact Hax|]. intros k Hk.
  rewrite Hax, replay_firstn by lia. apply replay_nth. exact Hk.
Qed.


(** X3. The progress line is printed after every fifth trial and at no
    other time: at the end of a run of [N] trials the printed counts are
    the multiples of 5 from 5 up to [N], in increasing order; for the
    script's 30 trials, 5, 10, 15, 20, 25 and 30. *)
Theorem progress_lines (suggest : AxClient -> parameterization) (N : nat) :
  let c := run suggest N (2 * N + 2) initial in
  stdout c = progress N
  /\ (forall n, In n (stdout c) <-> 1 <= n <= N /\ n mod 5 = 0)
  /\ stdout (run suggest num_trials 62 initial) = [5; 10; 15; 20; 25; 30].
Proof.
  destruct (run_replay_done suggest N) as (_ & _ & Hout & _). cbv zeta.
  split; [exact Hout|]. split.
  - intro n. rewrite Hout. unfold progress. rewrite filter_In, in_seq.
    rewrite Nat.eqb_eq. lia.
  - destruct (run_replay_done suggest num_trials) as (_ & _ & H30 & _).
    exact H30.
Qed.

Lemma inv_statuses (N : nat) (c : config) :
  inv N c ->
  forallb (fun t => negb (is_failed t)) (ax_client c) = true
  /\ List.length (filter is_running (ax_client c)) <= 1.
Proof.
  assert (Hall : forall l, forallb is_completed l = true ->
            forallb (fun t => negb (is_failed t)) l = true
            /\ filter is_running l = []).
  { induction l as [|t l IH]; [split; reflexivity|].
    cbn [forallb filter]. intro H. apply andb_prop in H.
    destruct H as (Ht & Hl). destruct (IH Hl) as (IH1 & IH2).
    assert (Hs : negb (is_failed t) = true /\ is_running t = false).
    { unfold is_completed in Ht. unfold is_failed, is_running.
      destruct (t_status t); try discriminate Ht. split; reflexivity. }
    destruct Hs as (Hs1 & Hs2). rewrite Hs1, Hs2, IH1, IH2.
    split; reflexivity. }
  intros (_ & _ & H). destruct (pc c) as [| |p idx|].
  - destruct H as (_ & _ & Hc & _). destruct (Hall _ Hc) as (H1 & H2).
    rewrite H1, H2. split; [reflexivity | cbn; lia].
  - destruct H as (_ & Hc & _). destruct (Hall _ Hc) as (H1 & H2).
    rewrite H1, H2. split; [reflexivity | cbn; lia].
  - destruct H as (_ & _ & c0 & -> & _ & Hc & _).
    destruct (Hall _ Hc) as (H1 & H2).
    rewrite forallb_app, filter_app, H1, H2. split; [reflexivity | cbn; lia].
  - destruct H as (_ & _ & Hc & _). destruct (Hall _ Hc) as (H1 & H2).
    rewrite H1, H2. split; [reflexivity | cbn; lia].
Qed.

(** X4. For every budget and every optimiser, at every point of the run:
    no report has been rejected, no trial is marked failed, at most one
    trial is running, and the loop variable never passes the budget. *)
Theorem run_never_fails (suggest : AxClient -> parameterization)
    (N fuel : nat) :
  let c := run suggest N fuel initial in
  failure c = None
  /\ forallb (fun t => negb (is_failed t)) (ax_client c) = true
  /\ List.length (filter is_running (ax_client c)) <= 1
  /\ i c <= N.
Proof.
  pose proof (run_inv suggest N fuel initial (inv_initial N)) as Hinv.
  cbv zeta. destruct (inv_statuses N _ Hinv) as (H1 & H2).
  destruct Hinv as (Hf & Hi & _). tauto.
Qed.

(** * Further properties of the evaluation function *)

Section AnyInput.

Local Open Scope R_scope.

Lemma Prim2SF_nan (x : float) : is_nan x = true <-> Prim2SF x = S754_nan.
Proof.
  split.
  - intro H. unfold Prim2SF. rewrite H. reflexivity.
  - intro H. destruct (is_nan x) eqn:E; [reflexivity|]. exfalso.
    unfold Prim2SF in H. rewrite E in H.
    destruct (is_zero x); [discriminate|].
    destruct (is_infinity x); [discriminate|].
    destruct (FloatOps.Z.frexp x) as [r e].
    destruct (shr_fexp _ _ _ _ _) as [sh e'].
    destruct (shr_m sh); discriminate.
Qed.

Lemma ltb_nan (x y : float) :
  is_nan x = true -> (x <? y)%float = false /\ (y <? x)%float = false.
Proof.
  intro H. apply Prim2SF_nan in H. rewrite !ltb_spec, H. split.
  - reflexivity.
  - unfold SFltb, SFcompare. destruct (Prim2SF y); reflexivity.
Qed.

Lemma mul_nan (x y : float) : is_nan x = true -> is_nan (x * y) = true.
Proof.
  intro H. apply Prim2SF_nan in H. apply Prim2SF_nan.
  rewrite mul_spec, H. reflexivity.
Qed.

(** The clamp of any float: a NaN passes through, everything else,
    infinities included, lands in the range. *)
Lemma clamp_any (x lo hi : float) :
  small lo = true -> small hi = true -> (lo <=? hi)%float = true ->
  (is_nan x = true /\ Py.min (Py.max x lo) hi = x)
  \/ in_range lo hi (Py.min (Py.max x lo) hi).
Proof.
  intros Slo Shi Hle.
  destruct (small_correct _ Slo) as (Flo & _).
  destruct (small_correct _ Shi) as (Fhi & _).
  pose proof Hle as Hle'. apply leb_correct in Hle'; try assumption.
  destruct (Prim2SF x) as [sx|sx| |sx mx ex] eqn:E.
  - right. apply clamp_in_range; try assumption. unfold finite. rewrite E. reflexivity.
  - right. split; [assumption|]. split; [assumption|].
    unfold Py.max, Py.min. rewrite (ltb_spec x lo), E.
    unfold finite in Flo, Fhi.
    destruct sx.
    + assert (H1 : SFltb (S754_infinity true) (Prim2SF lo) = true).
      { destruct (Prim2SF lo); try discriminate; reflexivity. }
      rewrite H1.
      assert (H2 : (hi <? lo)%float = false).
      { destruct (hi <? lo)%float eqn:E2; [|reflexivity].
        apply ltb_correct in E2; try assumption. lra. }
      rewrite H2. split; [assumption | lra].
    + assert (H1 : SFltb (S754_infinity false) (Prim2SF lo) = false).
      { destruct (Prim2SF lo); try discriminate; reflexivity. }
      rewrite H1, (ltb_spec hi x), E.
      assert (H2 : SFltb (Prim2SF hi) (S754_infinity false) = true).
      { destruct (Prim2SF hi); try discriminate; reflexivity. }
      rewrite H2. split; [assumption | lra].
  - left. assert (Hn : is_nan x = true) by (apply Prim2SF_nan; exact E).
    split; [assumption|]. unfold Py.max, Py.min.
    destruct (ltb_nan x lo Hn) as (-> & _).
    destruct (ltb_nan x hi Hn) as (_ & ->). reflexivity.
  - right. apply clamp_in_range; try assumption. unfold finite. rewrite E. reflexivity.
Qed.

Lemma percentage_any (raw : float) :
  let v := (Py.min (Py.max raw 0) 1.0 * 100)%float in
  is_nan v = true \/ within 0 100 v = true.
Proof.
  cbv zeta.
  destruct (clamp_any raw 0 1.0) as [(Hn & ->) | Hr]; try side.
  - left. apply mul_nan. exact Hn.
  - right. eapply within_of_in_range;
      [eapply in_range_mul_r; [side | side | exact Hr | side | side]
      | side..].
Qed.

End AnyInput.

(** X5. On any five floats (binary64 numbers: in the declared bounds or
    not, infinite or NaN included) the evaluation function returns for
    each objective either a NaN or a value within the objective's clamped
    range: never an infinity, never a number outside the range. *)
Theorem metrics_never_out_of_range (a o s st t : float) (name : string) :
  In name (map fst objectives) ->
  exists v, Py.get name (evaluate_extraction a o s st t) = Some v
            /\ (is_nan v = true
                \/ within (fst (objective_range name))
                          (snd (objective_range name)) v = true).
Proof.
  intro Hin. simpl in Hin.
  destruct Hin as [<- | [<- | [<- | [<- | [<- | []]]]]];
    eexists; (split; [reflexivity|]); cbn [objective_range String.eqb fst snd
      Ascii.eqb Bool.eqb].
  - apply percentage_any.
  - unfold purity. destruct (clamp_any (purity_raw a t) 0 100) as [(Hn & ->) | Hr];
      try side; [left; exact Hn | right].
    eapply within_of_in_range; [exact Hr | side..].
  - apply percentage_any.
  - apply percentage_any.
  - unfold total_time.
    destruct (clamp_any (total_time_raw s st t) 0 2000) as [(Hn & ->) | Hr];
      try side; [left; exact Hn | right].
    eapply within_of_in_range; [exact Hr | side..].
Qed.

Lemma metrics_never_out_of_range_witness :
  exists v, Py.get "emulsion" (evaluate_extraction 0.5 0.5 infinity 60 neg_infinity)
            = Some v
            /\ (is_nan v = true \/ within 0 100 v = true).
Proof.
  exact (metrics_never_out_of_range 0.5 0.5 infinity 60 neg_infinity
           "emulsion"%string (or_intror (or_intror (or_intror (or_introl eq_refl))))).
Defined.

(** ** Monotonicity of float expressions *)

Section Monotone.

Local Open Scope R_scope.

Lemma le_in_refl (l h x : float) : in_range l h x -> le_in l h x x.
Proof. intro H. repeat split; try apply H; lra. Qed.

Lemma in_range_ends (l h x : float) :
  in_range l h x -> le_in l h l x /\ le_in l h x h.
Proof.
  intros (Sl & Sh & Fx & H1 & H2).
  destruct (small_correct _ Sl) as (Fl & _).
  destruct (small_correct _ Sh) as (Fh & _).
  split; (split; [|split]); try assumption;
    (split; [assumption|]; split; [assumption|]; split; [assumption|]; lra).
Qed.

Lemma le_in_of_within (l h x x' : float) :
  small l = true -> small h = true ->
  within l h x = true -> within l h x' = true -> (x <=? x')%float = true ->
  le_in l h x x'.
Proof.
  intros Sl Sh Hx Hx' Hle.
  apply in_range_of_within in Hx; try assumption.
  apply in_range_of_within in Hx'; try assumption.
  split; [assumption|]. split; [assumption|].
  apply leb_correct; [exact (in_range_finite _ _ _ Hx)
                     | exact (in_range_finite _ _ _ Hx') | exact Hle].
Qed.

Lemma leb_of_le_in (l h x x' : float) :
  le_in l h x x' -> (x <=? x')%float = true.
Proof.
  intros (Hx & Hx' & H).
  apply leb_correct; [exact (in_range_finite _ _ _ Hx)
                     | exact (in_range_finite _ _ _ Hx') | exact H].
Qed.

Lemma le_in_add (l1 h1 l2 h2 x x' y y' : float) :
  le_in l1 h1 x x' -> le_in l2 h2 y y' ->
  small (l1 + l2) = true -> small (h1 + h2) = true ->
  le_in (l1 + l2) (h1 + h2) (x + y) (x' + y').
Proof.
  intros (Hx & Hx' & Lx) (Hy & Hy' & Ly) Sl Sh.
  split; [apply in_range_add; assumption|].
  split; [apply in_range_add; assumption|].
  pose proof (in_range_abs _ _ _ Hx) as Ax.
  pose proof (in_range_abs _ _ _ Hx') as Ax'.
  pose proof (in_range_abs _ _ _ Hy) as Ay.
  pose proof (in_range_abs _ _ _ Hy') as Ay'.
  pose proof two_bpow500 as Hb.
  assert (Hsum : forall a b, Rabs a <= bpow 500 -> Rabs b <= bpow 500 ->
                             Rabs (a + b) < bpow 1023).
  { intros a b Ha Hb'. eapply Rle_lt_trans; [apply Rabs_triang|]. lra. }
  destruct (add_correct x y (in_range_finite _ _ _ Hx) (in_range_finite _ _ _ Hy)
              (Hsum _ _ Ax Ay)) as (_ & R1).
  destruct (add_correct x' y' (in_range_finite _ _ _ Hx')
              (in_range_finite _ _ _ Hy') (Hsum _ _ Ax' Ay')) as (_ & R2).
  apply (Rnd_mono (B2R x + B2R y) (B2R x' + B2R y')); [lra | assumption..].
Qed.

Lemma le_in_sub (l1 h1 l2 h2 x x' y y' : float) :
  le_in l1 h1 x x' -> le_in l2 h2 y' y ->
  small (l1 - h2) = true -> small (h1 - l2) = true ->
  le_in (l1 - h2) (h1 - l2) (x - y) (x' - y').
Proof.
  intros (Hx & Hx' & Lx) (Hy' & Hy & Ly) Sl Sh.
  split; [apply in_range_sub; assumption|].
  split; [apply in_range_sub; assumption|].
  pose proof (in_range_abs _ _ _ Hx) as Ax.
  pose proof (in_range_abs _ _ _ Hx') as Ax'.
  pose proof (in_range_abs _ _ _ Hy) as Ay.
  pose proof (in_range_abs _ _ _ Hy') as Ay'.
  pose proof two_bpow500 as Hb.
  assert (Hdiff : forall a b, Rabs a <= bpow 500 -> Rabs b <= bpow 500 ->
                              Rabs (a - b) < bpow 1023).
  { intros a b Ha Hb'. apply Rabs_le_inv in Ha. apply Rabs_le_inv in Hb'.
    apply Rle_lt_trans with (2 * bpow 500); [apply Rabs_le; lra | assumption]. }
  destruct (sub_correct x y (in_range_finite _ _ _ Hx) (in_range_finite _ _ _ Hy)
              (Hdiff _ _ Ax Ay)) as (_ & R1).
  destruct (sub_correct x' y' (in_range_finite _ _ _ Hx')
              (in_range_finite _ _ _ Hy') (Hdiff _ _ Ax' Ay')) as (_ & R2).
  apply (Rnd_mono (B2R x - B2R y) (B2R x' - B2R y')); [lra | assumption..].
Qed.

Lemma le_in_mul_l (c l h x x' : float) :
  small c = true -> nonneg c = true -> le_in l h x x' ->
  small (c * l) = true -> small (c * h) = true ->
  le_in (c * l) (c * h) (c * x) (c * x').
Proof.
  intros Sc Nc (Hx & Hx' & Lx) Sl Sh.
  split; [apply in_range_mul_l; assumption|].
  split; [apply in_range_mul_l; assumption|].
  pose proof (in_range_abs _ _ _ Hx) as Ax.
  pose proof (in_range_abs _ _ _ Hx') as Ax'.
  destruct (small_correct _ Sc) as (Fc & Ac).
  pose proof (nonneg_correct c Fc Nc) as Hc.
  destruct (mul_correct c x Fc (in_range_finite _ _ _ Hx)
              (Rabs_mul_small _ _ Ac Ax)) as (_ & R1).
  destruct (mul_correct c x' Fc (in_range_finite _ _ _ Hx')
              (Rabs_mul_small _ _ Ac Ax')) as (_ & R2).
  apply (Rnd_mono (B2R c * B2R x) (B2R c * B2R x')); [nra | assumption..].
Qed.

Lemma le_in_mul_r (c l h x x' : float) :
  small c = true -> nonneg c = true -> le_in l h x x' ->
  small (l * c) = true -> small (h * c) = true ->
  le_in (l * c) (h * c) (x * c) (x' * c).
Proof.
  intros Sc Nc (Hx & Hx' & Lx) Sl Sh.
  split; [apply in_range_mul_r; assumption|].
  split; [apply in_range_mul_r; assumption|].
  pose proof (in_range_abs _ _ _ Hx) as Ax.
  pose proof (in_range_abs _ _ _ Hx') as Ax'.
  destruct (small_correct _ Sc) as (Fc & Ac).
  pose proof (nonneg_correct c Fc Nc) as Hc.
  destruct (mul_correct x c (in_range_finite _ _ _ Hx) Fc
              (Rabs_mul_small _ _ Ax Ac)) as (_ & R1).
  destruct (mul_correct x' c (in_range_finite _ _ _ Hx') Fc
              (Rabs_mul_small _ _ Ax' Ac)) as (_ & R2).
  apply (Rnd_mono (B2R x * B2R c) (B2R x' * B2R c)); [nra | assumption..].
Qed.

Lemma le_in_div_r (c l h x x' : float) :
  small c = true -> large c = true -> le_in l h x x' ->
  small (l / c) = true -> small (h / c) = true ->
  le_in (l / c) (h / c) (x / c) (x' / c).
Proof.
  intros Sc Lc (Hx & Hx' & Lx) Sl Sh.
  split; [apply in_range_div_r; assumption|].
  split; [apply in_range_div_r; assumption|].
  pose proof (in_range_abs _ _ _ Hx) as Ax.
  pose proof (in_range_abs _ _ _ Hx') as Ax'.
  destruct (small_correct _ Sc) as (Fc & Ac).
  pose proof (large_correct c Fc Lc) as Hc.
  pose proof (bpow_gt_0 (-500)) as Hpos.
  assert (Hc0 : B2R c <> 0) by lra.
  assert (Hinv : 0 < / B2R c) by (apply Rinv_0_lt_compat; lra).
  destruct (div_correct x c (in_range_finite _ _ _ Hx) Fc Hc0
              (Rabs_div_small _ _ Ax Hc)) as (_ & R1).
  destruct (div_correct x' c (in_range_finite _ _ _ Hx') Fc Hc0
              (Rabs_div_small _ _ Ax' Hc)) as (_ & R2).
  apply (Rnd_mono (B2R x / B2R c) (B2R x' / B2R c)); [|assumption..].
  unfold Rdiv. apply Rmult_le_compat_r; lra.
Qed.

(** The value of Python's clamp of a finite number. *)
Lemma clamp_value (x lo hi : float) :
  finite x -> small lo = true -> small hi = true ->
  B2R (Py.min (Py.max x lo) hi) = Rmin (Rmax (B2R x) (B2R lo)) (B2R hi).
Proof.
  intros Fx Slo Shi.
  destruct (small_correct _ Slo) as (Flo & _).
  destruct (small_correct _ Shi) as (Fhi & _).
  assert (Hmax : finite (Py.max x lo)
                 /\ B2R (Py.max x lo) = Rmax (B2R x) (B2R lo)).
  { unfold Py.max. destruct (x <? lo)%float eqn:E.
    - apply ltb_correct in E; try assumption.
      split; [assumption|]. rewrite Rmax_right; lra.
    - split; [assumption|].
      destruct (Rle_lt_dec (B2R lo) (B2R x)) as [Hle | Hlt].
      + rewrite Rmax_left; lra.
      + apply ltb_correct in Hlt; try assumption. congruence. }
  destruct Hmax as (Fm & Em). rewrite <- Em.
  set (m := Py.max x lo) in *. unfold Py.min.
  destruct (hi <? m)%float eqn:E.
  - apply ltb_correct in E; try assumption. rewrite Rmin_right; lra.
  - destruct (Rle_lt_dec (B2R m) (B2R hi)) as [Hle | Hlt].
    + rewrite Rmin_left; lra.
    + apply ltb_correct in Hlt; try assumption. congruence.
Qed.

Lemma le_in_clamp (l h x x' lo hi : float) :
  le_in l h x x' ->
  small lo = true -> small hi = true -> (lo <=? hi)%float = true ->
  le_in lo hi (Py.min (Py.max x lo) hi) (Py.min (Py.max x' lo) hi).
Proof.
  intros (Hx & Hx' & Lx) Slo Shi Hle.
  pose proof (in_range_finite _ _ _ Hx) as Fx.
  pose proof (in_range_finite _ _ _ Hx') as Fx'.
  split; [apply clamp_in_range; assumption|].
  split; [apply clamp_in_range; assumption|].
  rewrite !clamp_value by assumption.
  apply Rle_min_compat_r. apply Rle_max_compat_r. exact Lx.
Qed.

End Monotone.

Ltac mono :=
  lazymatch goal with
  | |- le_in _ _ (_ + _)%float (_ + _)%float =>
      eapply le_in_add; [mono | mono | side | side]
  | |- le_in _ _ (_ - _)%float (_ - _)%float =>
      eapply le_in_sub; [mono | mono | side | side]
  | |- le_in _ _ (_ * _)%float (_ * _)%float =>
      first [ eapply le_in_mul_l; [side | side | mono | side | side]
            | eapply le_in_mul_r; [side | side | mono | side | side] ]
  | |- le_in _ _ (_ / _)%float (_ / _)%float =>
      eapply le_in_div_r; [side | side | mono | side | side]
  | |- le_in _ _ (Py.min (Py.max _ _) _) (Py.min (Py.max _ _) _) =>
      eapply le_in_clamp; [mono | side | side | side]
  | |- le_in _ _ _ _ =>
      first [ eassumption | apply le_in_refl; range ]
  end.

Section MetricsMonotone.

Variables a a' s s' st st' t t' : float.
Hypothesis Ha : le_in 0 1 a a'.
Hypothesis Hs : le_in 100 500 s s'.
Hypothesis Hst : le_in 10 120 st st'.
Hypothesis Ht : le_in 4 40 t t'.

Ltac leaves :=
  pose proof (proj1 Ha); pose proof (proj1 (proj2 Ha));
  pose proof (proj1 Hs); pose proof (proj1 (proj2 Hs));
  pose proof (proj1 Hst); pose proof (proj1 (proj2 Hst));
  pose proof (proj1 Ht); pose proof (proj1 (proj2 Ht)).

Lemma recovery_mono :
  exists l h, le_in l h (recovery (1.0 - a') s t) (recovery (1.0 - a) s' t').
Proof. leaves. eexists. eexists. unfold recovery, recovery_raw. mono. Qed.

Lemma purity_mono :
  exists l h, le_in l h (purity a t) (purity a' t').
Proof. leaves. eexists. eexists. unfold purity, purity_raw. mono. Qed.

Lemma separation_mono :
  exists l h, le_in l h (separation s' t) (separation s t').
Proof. leaves. eexists. eexists. unfold separation, separation_raw. mono. Qed.

Lemma emulsion_mono :
  exists l h, le_in l h (emulsion s st) (emulsion s' st').
Proof. leaves. eexists. eexists. unfold emulsion, emulsion_raw. mono. Qed.

Lemma total_time_mono :
  exists l h, le_in l h (total_time s st t') (total_time s' st' t).
Proof.
  leaves. eexists. eexists.
  unfold total_time, total_time_raw, separation, separation_raw,
    emulsion, emulsion_raw.
  mono.
Qed.

End MetricsMonotone.

Lemma le_in_of_ranges (l h x x' : float) :
  in_range l h x -> in_range l h x' -> (x <=? x')%float = true ->
  le_in l h x x'.
Proof.
  intros Hx Hx' Hle. split; [assumption|]. split; [assumption|].
  apply leb_correct; [exact (in_range_finite _ _ _ Hx)
                     | exact (in_range_finite _ _ _ Hx') | exact Hle].
Qed.

(** The metrics compared at two candidates of the declared bounds. *)

Lemma recovery_le (p p' : parameterization) :
  in_bounds p = true -> in_bounds p' = true ->
  (p_aqueous_composition p' <=? p_aqueous_composition p)%float = true ->
  (p_stirring_speed p <=? p_stirring_speed p')%float = true ->
  (p_temperature p <=? p_temperature p')%float = true ->
  (recovery (1.0 - p_aqueous_composition p) (p_stirring_speed p)
     (p_temperature p)
   <=? recovery (1.0 - p_aqueous_composition p') (p_stirring_speed p')
     (p_temperature p'))%float = true.
Proof.
  intros Hb Hb' La Ls Lt.
  destruct (in_bounds_ranges p Hb) as (Ha & Hs & Hst & Ht).
  destruct (in_bounds_ranges p' Hb') as (Ha' & Hs' & Hst' & Ht').
  destruct (recovery_mono _ _ _ _ _ _ _ _
              (le_in_of_ranges _ _ _ _ Ha' Ha La)
              (le_in_of_ranges _ _ _ _ Hs Hs' Ls)
              (le_in_refl _ _ _ Hst)
              (le_in_of_ranges _ _ _ _ Ht Ht' Lt)) as (l & h & H).
  exact (leb_of_le_in _ _ _ _ H).
Qed.

Lemma purity_le (p p' : parameterization) :
  in_bounds p = true -> in_bounds p' = true ->
  (p_aqueous_composition p <=? p_aqueous_composition p')%float = true ->
  (p_temperature p <=? p_temperature p')%float = true ->
  (purity (p_aqueous_composition p) (p_temperature p)
   <=? purity (p_aqueous_composition p') (p_temperature p'))%float = true.
Proof.
  intros Hb Hb' La Lt.
  destruct (in_bounds_ranges p Hb) as (Ha & Hs & Hst & Ht).
  destruct (in_bounds_ranges p' Hb') as (Ha' & Hs' & Hst' & Ht').
  destruct (purity_mono _ _ _ _ _ _ _ _
              (le_in_of_ranges _ _ _ _ Ha Ha' La)
              (le_in_refl _ _ _ Hs)
              (le_in_refl _ _ _ Hst)
              (le_in_of_ranges _ _ _ _ Ht Ht' Lt)) as (l & h & H).
  exact (leb_of_le_in _ _ _ _ H).
Qed.

Lemma separation_le (p p' : parameterization) :
  in_bounds p = true -> in_bounds p' = true ->
  (p_stirring_speed p' <=? p_stirring_speed p)%float = true ->
  (p_temperature p <=? p_temperature p')%float = true ->
  (separation (p_stirring_speed p) (p_temperature p)
   <=? separation (p_stirring_speed p') (p_temperature p'))%float = true.
Proof.
  intros Hb Hb' Ls Lt.
  destruct (in_bounds_ranges p Hb) as (Ha & Hs & Hst & Ht).
  destruct (in_bounds_ranges p' Hb') as (Ha' & Hs' & Hst' & Ht').
  destruct (separation_mono _ _ _ _ _ _ _ _
              (le_in_refl _ _ _ Ha)
              (le_in_of_ranges _ _ _ _ Hs' Hs Ls)
              (le_in_refl _ _ _ Hst)
              (le_in_of_ranges _ _ _ _ Ht Ht' Lt)) as (l & h & H).
  exact (leb_of_le_in _ _ _ _ H).
Qed.

Lemma emulsion_le (p p' : parameterization) :
  in_bounds p = true -> in_bounds p' = true ->
  (p_stirring_speed p <=? p_stirring_speed p')%float = true ->
  (p_stirring_time p <=? p_stirring_time p')%float = true ->
  (emulsion (p_stirring_speed p) (p_stirring_time p)
   <=? emulsion (p_stirring_speed p') (p_stirring_time p'))%float = true.
Proof.
  intros Hb Hb' Ls Lst.
  destruct (in_bounds_ranges p Hb) as (Ha & Hs & Hst & Ht).
  destruct (in_bounds_ranges p' Hb') as (Ha' & Hs' & Hst' & Ht').
  destruct (emulsion_mono _ _ _ _ _ _ _ _
              (le_in_refl _ _ _ Ha)
              (le_in_of_ranges _ _ _ _ Hs Hs' Ls)
              (le_in_of_ranges _ _ _ _ Hst Hst' Lst)
              (le_in_refl _ _ _ Ht)) as (l & h & H).
  exact (leb_of_le_in _ _ _ _ H).
Qed.

Lemma total_time_le (p p' : parameterization) :
  in_bounds p = true -> in_bounds p' = true ->
  (p_stirring_speed p <=? p_stirring_speed p')%float = true ->
  (p_stirring_time p <=? p_stirring_time p')%float = true ->
  (p_temperature p' <=? p_temperature p)%float = true ->
  (total_time (p_stirring_speed p) (p_stirring_time p)
     (p_temperature p)
   <=? total_time (p_stirring_speed p') (p_stirring_time p')
     (p_temperature p'))%float = true.
Proof.
  intros Hb Hb' Ls Lst Lt.
  destruct (in_bounds_ranges p Hb) as (Ha & Hs & Hst & Ht).
  destruct (in_bounds_ranges p' Hb') as (Ha' & Hs' & Hst' & Ht').
  destruct (total_time_mono _ _ _ _ _ _ _ _
              (le_in_refl _ _ _ Ha)
              (le_in_of_ranges _ _ _ _ Hs Hs' Ls)
              (le_in_of_ranges _ _ _ _ Hst Hst' Lst)
              (le_in_of_ranges _ _ _ _ Ht' Ht Lt)) as (l & h & H).
  exact (leb_of_le_in _ _ _ _ H).
Qed.

(** X6. Within the declared bounds the reported recovery never decreases
    when the aqueous fraction goes down (the derived organic fraction goes
    up) and the stirring speed and the temperature go up, in binary64
    arithmetic, rounding and clamp included. *)
Theorem recovery_monotone (p p' : parameterization) :
  in_bounds p = true -> in_bounds p' = true ->
  (p_aqueous_composition p' <=? p_aqueous_composition p)%float = true ->
  (p_stirring_speed p <=? p_stirring_speed p')%float = true ->
  (p_temperature p <=? p_temperature p')%float = true ->
  (metric "recovery" p <=? metric "recovery" p')%float = true.
Proof. exact (recovery_le p p'). Qed.

Lemma recovery_monotone_witness :
  let p := {| p_aqueous_composition := 0.6; p_stirring_speed := 200;
              p_stirring_time := 60; p_temperature := 10 |} in
  let p' := {| p_aqueous_composition := 0.4; p_stirring_speed := 300;
               p_stirring_time := 30; p_temperature := 25 |} in
  in_bounds p = true /\ in_bounds p' = true
  /\ (metric "recovery" p <=? metric "recovery" p')%float = true.
Proof.
  cbv zeta. split; [reflexivity|]. split; [reflexivity|].
  apply recovery_monotone; reflexivity.
Defined.

(** X7. Within the declared bounds the reported purity never decreases
    when the aqueous fraction and the temperature go up. *)
Theorem purity_monotone (p p' : parameterization) :
  in_bounds p = true -> in_bounds p' = true ->
  (p_aqueous_composition p <=? p_aqueous_composition p')%float = true ->
  (p_temperature p <=? p_temperature p')%float = true ->
  (metric "purity" p <=? metric "purity" p')%float = true.
Proof. exact (purity_le p p'). Qed.

Lemma purity_monotone_witness :
  let p := {| p_aqueous_composition := 0.4; p_stirring_speed := 200;
              p_stirring_time := 60; p_temperature := 10 |} in
  let p' := {| p_aqueous_composition := 0.6; p_stirring_speed := 300;
               p_stirring_time := 30; p_temperature := 25 |} in
  in_bounds p = true /\ in_bounds p' = true
  /\ (metric "purity" p <=? metric "purity" p')%float = true.
Proof.
  cbv zeta. split; [reflexivity|]. split; [reflexivity|].
  apply purity_monotone; reflexivity.
Defined.

(** X8. Within the declared bounds the reported separation never decreases
    when the stirring speed goes down and the temperature goes up. *)
Theorem separation_monotone (p p' : parameterization) :
  in_bounds p = true -> in_bounds p' = true ->
  (p_stirring_speed p' <=? p_stirring_speed p)%float = true ->
  (p_temperature p <=? p_temperature p')%float = true ->
  (metric "separation" p <=? metric "separation" p')%float = true.
Proof. exact (separation_le p p'). Qed.

Lemma separation_monotone_witness :
  let p := {| p_aqueous_composition := 0.4; p_stirring_speed := 400;
              p_stirring_time := 60; p_temperature := 10 |} in
  let p' := {| p_aqueous_composition := 0.6; p_stirring_speed := 300;
               p_stirring_time := 30; p_temperature := 25 |} in
  in_bounds p = true /\ in_bounds p' = true
  /\ (metric "separation" p <=? metric "separation" p')%float = true.
Proof.
  cbv zeta. split; [reflexivity|]. split; [reflexivity|].
  apply separation_monotone; reflexivity.
Defined.

(** X9. Within the declared bounds the reported emulsion never decreases
    when the stirring speed and the stirring time go up. *)
Theorem emulsion_monotone (p p' : parameterization) :
  in_bounds p = true -> in_bounds p' = true ->
  (p_stirring_speed p <=? p_stirring_speed p')%float = true ->
  (p_stirring_time p <=? p_stirring_time p')%float = true ->
  (metric "emulsion" p <=? metric "emulsion" p')%float = true.
Proof. exact (emulsion_le p p'). Qed.

Lemma emulsion_monotone_witness :
  let p := {| p_aqueous_composition := 0.4; p_stirring_speed := 200;
              p_stirring_time := 30; p_temperature := 10 |} in
  let p' := {| p_aqueous_composition := 0.6; p_stirring_speed := 300;
               p_stirring_time := 60; p_temperature := 25 |} in
  in_bounds p = true /\ in_bounds p' = true
  /\ (metric "emulsion" p <=? metric "emulsion" p')%float = true.
Proof.
  cbv zeta. split; [reflexivity|]. split; [reflexivity|].
  apply emulsion_monotone; reflexivity.
Defined.

(** X10. Within the declared bounds the reported total time never
    decreases when the stirring speed and the stirring time go up and the
    temperature goes down. *)
Theorem total_time_monotone (p p' : parameterization) :
  in_bounds p = true -> in_bounds p' = true ->
  (p_stirring_speed p <=? p_stirring_speed p')%float = true ->
  (p_stirring_time p <=? p_stirring_time p')%float = true ->
  (p_temperature p' <=? p_temperature p)%float = true ->
  (metric "total_time" p <=? metric "total_time" p')%float = true.
Proof. exact (total_time_le p p'). Qed.

Lemma total_time_monotone_witness :
  let p := {| p_aqueous_composition := 0.4; p_stirring_speed := 200;
              p_stirring_time := 30; p_temperature := 25 |} in
  let p' := {| p_aqueous_composition := 0.6; p_stirring_speed := 300;
               p_stirring_time := 60; p_temperature := 10 |} in
  in_bounds p = true /\ in_bounds p' = true
  /\ (metric "total_time" p <=? metric "total_time" p')%float = true.
Proof.
  cbv zeta. split; [reflexivity|]. split; [reflexivity|].
  apply total_time_monotone; reflexivity.
Defined.

Lemma in_bounds_within (p : parameterization) :
  in_bounds p = true ->
  within 0 1 (p_aqueous_composition p) = true
  /\ within 100 500 (p_stirring_speed p) = true
  /\ within 10 120 (p_stirring_time p) = true
  /\ within 4 40 (p_temperature p) = true.
Proof.
  unfold in_bounds. intro H.
  apply andb_prop in H. destruct H as (H & Ht).
  apply andb_prop in H. destruct H as (H & Hst).
  apply andb_prop in H. destruct H as (Ha & Hs). tauto.
Qed.

Lemma within_ends (l h x : float) :
  within l h x = true -> (l <=? x)%float = true /\ (x <=? h)%float = true.
Proof. unfold within. intro H. apply andb_prop in H. exact H. Qed.

Lemma metrics_within (p : parameterization) :
  in_bounds p = true ->
  within 35 100 (metric "recovery" p) = true
  /\ within 70 96 (metric "separation" p) = true
  /\ within 24.5 100 (metric "emulsion" p) = true
  /\ within 222.50000000000003 970 (metric "total_time" p) = true
  /\ within 82.77777777777777 97.77777777777777 (metric "purity" p) = true.
Proof.
  intro Hb. destruct (in_bounds_within p Hb) as (Wa & Ws & Wst & Wt).
  destruct (within_ends _ _ _ Wa) as (La & Ua).
  destruct (within_ends _ _ _ Ws) as (Ls & Us).
  destruct (within_ends _ _ _ Wst) as (Lst & Ust).
  destruct (within_ends _ _ _ Wt) as (Lt & Ut).
  set (lo := {| p_aqueous_composition := 1; p_stirring_speed := 100;
                p_stirring_time := 10; p_temperature := 4 |}).
  set (hi := {| p_aqueous_composition := 0; p_stirring_speed := 500;
                p_stirring_time := 120; p_temperature := 40 |}).
  set (slow := {| p_aqueous_composition := 0; p_stirring_speed := 100;
                  p_stirring_time := 10; p_temperature := 40 |}).
  set (fast := {| p_aqueous_composition := 1; p_stirring_speed := 500;
                  p_stirring_time := 120; p_temperature := 4 |}).
  set (cold := {| p_aqueous_composition := 0; p_stirring_speed := 100;
                  p_stirring_time := 10; p_temperature := 4 |}).
  set (warm := {| p_aqueous_composition := 1; p_stirring_speed := 500;
                  p_stirring_time := 120; p_temperature := 40 |}).
  assert (Blo : in_bounds lo = true) by reflexivity.
  assert (Bhi : in_bounds hi = true) by reflexivity.
  assert (Bslow : in_bounds slow = true) by reflexivity.
  assert (Bfast : in_bounds fast = true) by reflexivity.
  split; [|split; [|split; [|split]]];
    unfold within; apply andb_true_intro; split.
  - exact (recovery_le lo p Blo Hb Ua Ls Lt).
  - exact (recovery_le p hi Hb Bhi La Us Ut).
  - exact (separation_le fast p Bfast Hb Us Lt).
  - exact (separation_le p slow Hb Bslow Ls Ut).
  - exact (emulsion_le lo p Blo Hb Ls Lst).
  - exact (emulsion_le p hi Hb Bhi Us Ust).
  - exact (total_time_le slow p Bslow Hb Ls Lst Ut).
  - exact (total_time_le p fast Hb Bfast Us Ust Lt).
  - exact (purity_le cold p eq_refl Hb La Lt).
  - exact (purity_le p warm Hb eq_refl Ua Ut).
Qed.


(** X11. Within the declared bounds the reported recovery lies in
    [35, 100], the separation in [70, 96], the emulsion in [24.5, 100],
    the total time in [222.50000000000003, 970] and the purity in
    [82.77777777777777, 97.77777777777777]; every one of these bounds is
    the value at a corner of the parameter box. *)
Theorem metric_ranges (p : parameterization) :
  in_bounds p = true ->
  (within 35 100 (metric "recovery" p) = true
   /\ within 70 96 (metric "separation" p) = true
   /\ within 24.5 100 (metric "emulsion" p) = true
   /\ within 222.50000000000003 970 (metric "total_time" p) = true
   /\ within 82.77777777777777 97.77777777777777 (metric "purity" p) = true)
  /\ recovery (1.0 - 1) 100 4 = 35%float
  /\ recovery (1.0 - 0) 500 40 = 100%float
  /\ separation 500 4 = 70%float /\ separation 100 40 = 96%float
  /\ emulsion 100 10 = 24.5%float /\ emulsion 500 120 = 100%float
  /\ total_time 100 10 40 = 222.50000000000003%float
  /\ total_time 500 120 4 = 970%float
  /\ purity 0 4 = 82.77777777777777%float
  /\ purity 1 40 = 97.77777777777777%float.
Proof.
  intro Hb. split; [exact (metrics_within p Hb)|]. repeat split; side.
Qed.

Lemma metric_ranges_witness :
  let p := {| p_aqueous_composition := 0.5; p_stirring_speed := 300;
              p_stirring_time := 60; p_temperature := 20 |} in
  in_bounds p = true /\ within 35 100 (metric "recovery" p) = true.
Proof.
  cbv zeta. split; [reflexivity|].
  exact (proj1 (proj1 (metric_ranges
                  {| p_aqueous_composition := 0.5; p_stirring_speed := 300;
                     p_stirring_time := 60; p_temperature := 20 |} eq_refl))).
Defined.

Section Thresholds.

Local Open Scope R_scope.

(** The lower clamp [max(x, lo)] leaves a number of the range as it is. *)
Lemma max_id (x l h lo : float) :
  in_range l h x -> small lo = true -> (lo <=? l)%float = true ->
  Py.max x lo = x.
Proof.
  intros (Sl & Sh & Fx & H1 & H2) Slo Hlo.
  destruct (small_correct _ Slo) as (Flo & _).
  destruct (small_correct _ Sl) as (Fl & _).
  apply leb_correct in Hlo; try assumption.
  unfold Py.max. destruct (x <? lo)%float eqn:E; [|reflexivity].
  apply ltb_correct in E; try assumption. lra.
Qed.

(** A value not above [c] is not at or above a larger [d]. *)
Lemma below_threshold (v c d : float) :
  small c = true -> small d = true ->
  (v <=? c)%float = true -> (c <? d)%float = true ->
  (d <=? v)%float = false.
Proof.
  intros Sc Sd Hv Hcd.
  destruct (small_correct _ Sc) as (Fc & _).
  destruct (small_correct _ Sd) as (Fd & _).
  destruct (d <=? v)%float eqn:E; [|reflexivity]. exfalso.
  assert (Hw : within d c v = true)
    by (unfold within; rewrite E, Hv; reflexivity).
  apply in_range_of_within in Hw; try assumption.
  destruct Hw as (_ & _ & _ & H1 & H2).
  apply ltb_correct in Hcd; try assumption. lra.
Qed.

End Thresholds.

(** X12. Within the declared bounds only the upper clamp of the recovery
    can change a value: the separation and the emulsion are their raw
    fractions times 100, and the lower clamp of the recovery is never
    active. *)
Theorem only_recovery_saturates (p : parameterization) :
  in_bounds p = true ->
  let a := p_aqueous_composition p in
  let s := p_stirring_speed p in
  let st := p_stirring_time p in
  let t := p_temperature p in
  metric "separation" p = (separation_raw s t * 100)%float
  /\ metric "emulsion" p = (emulsion_raw s st * 100)%float
  /\ metric "recovery" p
     = (Py.min (recovery_raw (1.0 - a) s t) 1.0 * 100)%float.
Proof.
  intro Hb. destruct (in_bounds_ranges p Hb) as (Ha & Hs & Hst & Ht).
  cbv zeta. split; [|split].
  - change (metric "separation" p) with
      (Py.min (Py.max (separation_raw (p_stirring_speed p) (p_temperature p)) 0)
              1.0 * 100)%float.
    f_equal. eapply clamp_id; [exact (separation_raw_range _ _ Hs Ht) | side..].
  - change (metric "emulsion" p) with
      (Py.min (Py.max (emulsion_raw (p_stirring_speed p) (p_stirring_time p)) 0)
              1.0 * 100)%float.
    f_equal. eapply clamp_id; [exact (emulsion_raw_range _ _ Hs Hst) | side..].
  - change (metric "recovery" p) with
      (Py.min (Py.max (recovery_raw (1.0 - p_aqueous_composition p)
                         (p_stirring_speed p) (p_temperature p)) 0)
              1.0 * 100)%float.
    f_equal. f_equal.
    eapply max_id; [exact (recovery_raw_range _ _ _ Ha Hs Ht) | side..].
Qed.

Lemma only_recovery_saturates_witness :
  let p := {| p_aqueous_composition := 0.5; p_stirring_speed := 300;
              p_stirring_time := 60; p_temperature := 20 |} in
  in_bounds p = true
  /\ metric "separation" p = (separation_raw 300 20 * 100)%float.
Proof.
  cbv zeta. split; [reflexivity|].
  exact (proj1 (only_recovery_saturates
                  {| p_aqueous_composition := 0.5; p_stirring_speed := 300;
                     p_stirring_time := 60; p_temperature := 20 |} eq_refl)).
Defined.

(** X13. The threshold declared for the total time (at most 1200) is met
    by every candidate within the declared bounds: it never tells two
    candidates apart. *)
Theorem total_time_threshold_always_met (p : parameterization)
    (o : ObjectiveProperties) :
  in_bounds p = true ->
  objective "total_time" objectives = Some o ->
  meets_threshold o (metric "total_time" p) = true.
Proof.
  intros Hb Ho. injection Ho as <-. cbn [meets_threshold threshold minimize].
  destruct (metrics_within p Hb) as (_ & _ & _ & Hw & _).
  apply in_range_of_within in Hw; [|side..].
  assert (H : within 0 1200 (metric "total_time" p) = true)
    by (eapply within_of_in_range; [exact Hw | side..]).
  exact (proj2 (within_ends _ _ _ H)).
Qed.

Lemma total_time_threshold_always_met_witness :
  let p := {| p_aqueous_composition := 0.5; p_stirring_speed := 500;
              p_stirring_time := 120; p_temperature := 4 |} in
  in_bounds p = true
  /\ meets_threshold {| minimize := true; threshold := Some 1200.0%float |}
       (metric "total_time" p) = true.
Proof.
  cbv zeta. split; [reflexivity|].
  exact (total_time_threshold_always_met
           {| p_aqueous_composition := 0.5; p_stirring_speed := 500;
              p_stirring_time := 120; p_temperature := 4 |} _ eq_refl eq_refl).
Defined.

(** X14. No candidate within the declared bounds whose aqueous fraction is
    at most 0.22 meets the purity threshold (at least 90): its purity is
    at most 89.97777777777777. *)
Theorem purity_threshold_needs_aqueous (p : parameterization)
    (o : ObjectiveProperties) :
  in_bounds p = true ->
  (p_aqueous_composition p <=? 0.22)%float = true ->
  objective "purity" objectives = Some o ->
  meets_threshold o (metric "purity" p) = false
  /\ (metric "purity" p <=? 89.97777777777777)%float = true.
Proof.
  intros Hb La Ho. injection Ho as <-. cbn [meets_threshold threshold minimize].
  destruct (in_bounds_within p Hb) as (_ & _ & _ & Wt).
  set (top := {| p_aqueous_composition := 0.22; p_stirring_speed := 100;
                 p_stirring_time := 10; p_temperature := 40 |}).
  pose proof (purity_le p top Hb eq_refl La
                (proj2 (within_ends _ _ _ Wt))) as H.
  change ((metric "purity" p <=? 89.97777777777777)%float = true) in H.
  split; [|exact H].
  eapply below_threshold; [| | exact H |]; side.
Qed.

Lemma purity_threshold_needs_aqueous_witness :
  let p := {| p_aqueous_composition := 0.2; p_stirring_speed := 300;
              p_stirring_time := 60; p_temperature := 40 |} in
  in_bounds p = true
  /\ meets_threshold {| minimize := false; threshold := Some 90.0%float |}
       (metric "purity" p) = false.
Proof.
  cbv zeta. split; [reflexivity|].
  exact (proj1 (purity_threshold_needs_aqueous
                  {| p_aqueous_composition := 0.2; p_stirring_speed := 300;
                     p_stirring_time := 60; p_temperature := 40 |} _
                  eq_refl eq_refl eq_refl)).
Defined.

(** X15. Every candidate within the declared bounds whose aqueous fraction
    is at most 0.7 meets the recovery threshold (at least 50), whatever
    its stirring speed and temperature. *)
Theorem recovery_threshold_met (p : parameterization)
    (o : ObjectiveProperties) :
  in_bounds p = true ->
  (p_aqueous_composition p <=? 0.7)%float = true ->
  objective "recovery" objectives = Some o ->
  meets_threshold o (metric "recovery" p) = true.
Proof.
  intros Hb La Ho. injection Ho as <-. cbn [meets_threshold threshold minimize].
  destruct (in_bounds_within p Hb) as (_ & Ws & _ & Wt).
  set (low := {| p_aqueous_composition := 0.7; p_stirring_speed := 100;
                 p_stirring_time := 10; p_temperature := 4 |}).
  pose proof (recovery_le low p eq_refl Hb La
                (proj1 (within_ends _ _ _ Ws))
                (proj1 (within_ends _ _ _ Wt))) as H.
  exact H.
Qed.

Lemma recovery_threshold_met_witness :
  let p := {| p_aqueous_composition := 0.65; p_stirring_speed := 100;
              p_stirring_time := 60; p_temperature := 4 |} in
  in_bounds p = true
  /\ meets_threshold {| minimize := false; threshold := Some 50.0%float |}
       (metric "recovery" p) = true.
Proof.
  cbv zeta. split; [reflexivity|].
  exact (recovery_threshold_met
           {| p_aqueous_composition := 0.65; p_stirring_speed := 100;
              p_stirring_time := 60; p_temperature := 4 |} _
           eq_refl eq_refl eq_refl).
Defined.

(** X16. The derived organic fraction of an aqueous fraction within
    [0, 1] is itself within [0, 1], the range the function documents for
    it, and it never increases when the aqueous fraction goes up. *)
Theorem organic_fraction_range (a a' : float) :
  within 0 1 a = true -> within 0 1 a' = true ->
  (a <=? a')%float = true ->
  within 0 1 (1.0 - a) = true
  /\ (1.0 - a' <=? 1.0 - a)%float = true.
Proof.
  intros Ha Ha' Hle.
  apply in_range_of_within in Ha; [|side..].
  apply in_range_of_within in Ha'; [|side..].
  split.
  - eapply within_of_in_range; [exact (organic_range a Ha) | side..].
  - eapply leb_of_le_in. eapply le_in_sub;
      [apply le_in_refl, in_range_const; side
      | exact (le_in_of_ranges _ _ _ _ Ha Ha' Hle) | side | side].
Qed.

Lemma organic_fraction_range_witness :
  within 0 1 0.3 = true /\ within 0 1 0.8 = true
  /\ within 0 1 (1.0 - 0.3) = true.
Proof.
  split; [reflexivity|]. split; [reflexivity|].
  exact (proj1 (organic_fraction_range 0.3 0.8 eq_refl eq_refl eq_refl)).
Defined.
